(** * Swiss-system tournament: a shallow embedding of [tournament.py]

    The Python module keeps all of its state in a PostgreSQL database
    (tables [players] and [match_history]) and opens one connection per
    operation.  The embedding threads a [World] (the committed database, the
    reachability of the server and the console) through a small state and
    exception monad; every SQL statement of the source is a function on
    [Database], applied to the cursor's working copy and made durable by
    [commit].  An operation that raises before its [commit] leaves the stored
    state as it found it.  [determineWinner] draws a random number and
    belongs to the test run at the end of the file; it is not modelled. *)

From Stdlib Require Import ZArith List String Bool Lia PeanoNat.
From Stdlib Require Import Sorting.Sorted Sorting.Permutation.
Import ListNotations.
Local Open Scope Z_scope.

(** ** Data model *)

(** A row of table [players]. *)
Record Player := mkPlayer {
  p_id : Z;
  p_name : string;
  p_wins : Z;
  p_losses : Z;
  p_matches_played : Z
}.

(** A row of table [match_history]: [(winner_id, loser_id)]; a bye is stored
    with [loser_id = -1]. *)
Definition MatchRecord : Type := Z * Z.

Record Database := mkDatabase {
  players : list Player;
  match_history : list MatchRecord;
  next_serial : Z
}.

(** A tuple [(id, name, wins, matches)] as returned by [playerStandings]. *)
Record Row := mkRow {
  s_id : Z;
  s_name : string;
  s_wins : Z;
  s_matches : Z
}.

(** A tuple [(id1, name1, id2, name2)] as returned by [swissPairings]. *)
Definition Pair : Type := Z * string * Z * string.

Record World := mkWorld {
  reachable : bool;
  store : Database;
  console : list (list string)
}.

Definition set_store (d : Database) (w : World) : World :=
  mkWorld (reachable w) d (console w).

Definition print (line : list string) (w : World) : World :=
  mkWorld (reachable w) (store w) (console w ++ [line]).

(** ** Exceptions and the operation monad *)

Inductive exn := TypeError | IndexError | OperationalError.

Inductive outcome (A : Type) :=
| Ok (a : A)
| Raise (e : exn)
| OutOfFuel.
Arguments Ok {A} a.
Arguments Raise {A} e.
Arguments OutOfFuel {A}.

Definition Op (A : Type) : Type := World -> outcome A * World.

Definition ret {A} (a : A) : Op A := fun w => (Ok a, w).

Definition raise {A} (e : exn) : Op A := fun w => (Raise e, w).

Definition out_of_fuel {A} : Op A := fun w => (OutOfFuel, w).

Definition bind {A B} (m : Op A) (k : A -> Op B) : Op B :=
  fun w =>
    match m w with
    | (Ok a, w') => k a w'
    | (Raise e, w') => (Raise e, w')
    | (OutOfFuel, w') => (OutOfFuel, w')
    end.

(** [try: m except: handler], with a bare [except] that catches every
    exception. *)
Definition try_except {A} (m : Op A) (handler : Op A) : Op A :=
  fun w =>
    match m w with
    | (Raise _, w') => handler w'
    | r => r
    end.

Notation "x <- m ;; k" := (bind m (fun x => k))
  (at level 61, m at next level, right associativity).
Notation "m ;;; k" := (bind m (fun _ => k))
  (at level 61, right associativity).

(** A Python [while] loop over a loop state [S].  The fuel bounds the number
    of evaluations of the condition; each caller passes a bound that its loop
    cannot exceed. *)
Fixpoint while_ {S : Type} (fuel : nat) (cond : S -> Op bool)
    (body : S -> Op S) (s : S) : Op S :=
  match fuel with
  | O => out_of_fuel
  | Datatypes.S n =>
      b <- cond s ;;
      if b then s' <- body s ;; while_ n cond body s' else ret s
  end.

(** ** Python lists *)

Definition len {A} (l : list A) : Z := Z.of_nat (List.length l).
Arguments len {A} l : simpl never.

(** The position a Python index denotes: negative indices count from the
    end, anything outside [-len, len) is an [IndexError]. *)
Definition py_position {A} (l : list A) (i : Z) : option nat :=
  if (0 <=? i) && (i <? len l) then Some (Z.to_nat i)
  else if (- len l <=? i) && (i <? 0) then Some (Z.to_nat (len l + i))
  else None.

(** [l[i]] *)
Definition index {A} (l : list A) (i : Z) : Op A :=
  match py_position l i with
  | Some n =>
      match nth_error l n with
      | Some a => ret a
      | None => raise IndexError
      end
  | None => raise IndexError
  end.

Fixpoint remove_nth {A} (n : nat) (l : list A) : list A :=
  match l with
  | [] => []
  | a :: l' =>
      match n with
      | O => l'
      | Datatypes.S n' => a :: remove_nth n' l'
      end
  end.

(** [l.pop(i)], returning the list that is left. *)
Definition pop {A} (l : list A) (i : Z) : Op (list A) :=
  match py_position l i with
  | Some n => ret (remove_nth n l)
  | None => raise IndexError
  end.

(** ** SQL statements *)

(** [UPDATE players SET wins = 0, losses = 0, matches_played = 0] *)
Definition sql_reset_counters (d : Database) : Database :=
  mkDatabase
    (map (fun p => mkPlayer (p_id p) (p_name p) 0 0 0) (players d))
    (match_history d) (next_serial d).

(** [DELETE FROM match_history] *)
Definition sql_delete_match_history (d : Database) : Database :=
  mkDatabase (players d) [] (next_serial d).

(** [DELETE FROM players] *)
Definition sql_delete_players (d : Database) : Database :=
  mkDatabase [] (match_history d) (next_serial d).

(** [SELECT count( * ) FROM players] *)
Definition sql_count_players (d : Database) : Z := len (players d).

(** Modelled from the spec: the schema of table [players] is not part of the
    source file.  [INSERT INTO players (name) VALUES (%s)] leaves the id to
    the serial column and the three counters to their defaults, which the
    data model gives as a fresh unique id and zero wins, losses and
    matches. *)
Definition sql_insert_player (name : string) (d : Database) : Database :=
  mkDatabase
    (players d ++ [mkPlayer (next_serial d) name 0 0 0])
    (match_history d) (next_serial d + 1).

(** [UPDATE players SET wins = wins + 1, matches_played = matches_played + 1
     WHERE id = %s] *)
Definition sql_add_win (id : Z) (d : Database) : Database :=
  mkDatabase
    (map (fun p =>
            if p_id p =? id
            then mkPlayer (p_id p) (p_name p) (p_wins p + 1) (p_losses p)
                   (p_matches_played p + 1)
            else p) (players d))
    (match_history d) (next_serial d).

(** [UPDATE players SET losses = losses + 1,
     matches_played = matches_played + 1 WHERE id = %s] *)
Definition sql_add_loss (id : Z) (d : Database) : Database :=
  mkDatabase
    (map (fun p =>
            if p_id p =? id
            then mkPlayer (p_id p) (p_name p) (p_wins p) (p_losses p + 1)
                   (p_matches_played p + 1)
            else p) (players d))
    (match_history d) (next_serial d).

(** [INSERT INTO match_history (winner_id, loser_id) VALUES (%s, %s)] *)
Definition sql_insert_match (winner loser : Z) (d : Database) : Database :=
  mkDatabase (players d) (match_history d ++ [(winner, loser)])
    (next_serial d).

(** [SELECT name FROM players WHERE id = %s] followed by [fetchone()]:
    the first row, or Python's [None]. *)
Definition sql_select_name (id : Z) (d : Database) : option string :=
  match find (fun p => p_id p =? id) (players d) with
  | Some p => Some (p_name p)
  | None => None
  end.

(** [SELECT count( * ) FROM match_history
     WHERE (winner_id = %s and loser_id = -1)] *)
Definition sql_count_byes (p1 : Z) (d : Database) : Z :=
  len (filter (fun m => (fst m =? p1) && (snd m =? -1)) (match_history d)).

(** [SELECT count( * ) FROM match_history
     WHERE (winner_id = %s AND loser_id = %s)
        OR (winner_id = %s AND loser_id = %s)] with [(p1, p2, p2, p1)] *)
Definition sql_count_rematch (p1 p2 : Z) (d : Database) : Z :=
  len (filter (fun m => ((fst m =? p1) && (snd m =? p2))
                        || ((fst m =? p2) && (snd m =? p1)))
         (match_history d)).

(** [ORDER BY] as a stable insertion sort; [ge p q] holds when [p] is to
    come no later than [q].  SQL leaves the order of rows with equal keys
    open; the sort keeps them in the order of the table as modelled, and no
    theorem below is about that order. *)
Fixpoint insert_ranked (ge : Player -> Player -> bool) (p : Player)
    (l : list Player) : list Player :=
  match l with
  | [] => [p]
  | q :: l' => if ge p q then p :: q :: l' else q :: insert_ranked ge p l'
  end.

Definition order_by (ge : Player -> Player -> bool) (l : list Player)
    : list Player :=
  fold_right (insert_ranked ge) [] l.

(** [ORDER BY a.wins DESC] *)
Definition wins_desc (p q : Player) : bool := p_wins q <=? p_wins p.

Definition row_of_player (p : Player) : Row :=
  mkRow (p_id p) (p_name p) (p_wins p) (p_matches_played p).

(** [SELECT a.id, a.name, a.wins, a.matches_played FROM players AS a
     ORDER BY a.wins DESC] *)
Definition sql_players_by_wins (d : Database) : list Row :=
  map row_of_player (order_by wins_desc (players d)).

(** ** Connections *)

(** [psycopg2.connect]: the connection and its cursor, here the cursor's
    working copy of the database; an [OperationalError] when the server
    cannot be reached. *)
Definition psycopg2_connect (dsn : string) : Op Database :=
  fun w =>
    if reachable w then (Ok (store w), w) else (Raise OperationalError, w).

(** [connect]: when [psycopg2.connect] raises, the bare [except] prints a
    line and the function falls off its end, returning [None]. *)
Definition connect (database_name : string) : Op (option Database) :=
  try_except
    (cur <- psycopg2_connect ("dbname=" ++ database_name) ;;
     ret (Some cur))
    (fun w =>
       (Ok None,
        print ["<Error: could not connect to "%string; database_name;
               ">"%string] w)).

(** [db, c = connect()]: unpacking [None] is a [TypeError]. *)
Definition open_cursor : Op Database :=
  r <- connect "tournament" ;;
  match r with
  | Some cur => ret cur
  | None => raise TypeError
  end.

(** [db.commit()]: the working copy becomes the stored state. *)
Definition commit (cur : Database) : Op unit :=
  fun w => (Ok tt, set_store cur w).

(** [c.fetchone()[0]]: subscripting [None] is a [TypeError]. *)
Definition fetchone_0 {A} (r : option A) : Op A :=
  match r with
  | Some a => ret a
  | None => raise TypeError
  end.

(** ** The operations of [tournament.py] *)

Definition deleteMatches : Op unit :=
  cur <- open_cursor ;;
  let cur := sql_reset_counters cur in
  commit cur ;;;
  let cur := sql_delete_match_history cur in
  commit cur ;;;
  ret tt.

Definition deletePlayers : Op unit :=
  cur <- open_cursor ;;
  let cur := sql_delete_players cur in
  commit cur ;;;
  ret tt.

Definition countPlayers : Op Z :=
  cur <- open_cursor ;;
  ret (sql_count_players cur).

Definition registerPlayer (name : string) : Op unit :=
  cur <- open_cursor ;;
  let cur := sql_insert_player name cur in
  commit cur ;;;
  ret tt.

Definition reportMatch (winner loser : Z) : Op unit :=
  cur <- open_cursor ;;
  let cur := sql_add_win winner cur in
  let cur := sql_add_loss loser cur in
  let cur := sql_insert_match winner loser cur in
  winner_name <- fetchone_0 (sql_select_name winner cur) ;;
  loser_name <- fetchone_0 (sql_select_name loser cur) ;;
  commit cur ;;;
  ret tt.

Definition reportBye (winner : Z) : Op unit :=
  cur <- open_cursor ;;
  let cur := sql_add_win winner cur in
  let cur := sql_insert_match winner (-1) cur in
  commit cur ;;;
  ret tt.

Definition checkBye (p1 : Z) : Op bool :=
  cur <- open_cursor ;;
  let count := sql_count_byes p1 cur in
  if count =? 0 then ret false else ret true.

Definition rematchCheck (p1 p2 : Z) : Op bool :=
  cur <- open_cursor ;;
  let count := sql_count_rematch p1 p2 cur in
  if count =? 0 then ret false else ret true.

Section Standings.

(** The view [player_standings] is defined in the schema, outside the
    source file: the operations below take its rows as a function of the
    database. *)
Variable player_standings : Database -> list Row.

Definition playerStandings : Op (list Row) :=
  cur <- open_cursor ;;
  let standings := player_standings cur in
  let standings :=
    if len standings =? 0 then sql_players_by_wins cur else standings in
  ret standings.

(** The inner loop of the bye block:
    [while checkBye(standings[len(standings) - k][0])
           and len(standings) - k >= 0: k += 1] *)
Definition bye_scan (standings : list Row) : Op Z :=
  while_ (Datatypes.S (Datatypes.S (List.length standings)))
    (fun k =>
       r <- index standings (len standings - k) ;;
       b <- checkBye (s_id r) ;;
       ret (b && (len standings - k >=? 0)))
    (fun k => ret (k + 1))
    1.

(** The block under [if len(standings) % 2 != 0]. *)
Definition assign_bye (standings : list Row) : Op (list Row) :=
  k <- bye_scan standings ;;
  r <- index standings (len standings - k) ;;
  reportBye (s_id r) ;;;
  pop standings (len standings - k).

(** [while j < len(standings) - 1 and
           rematchCheck(standings[0][0], standings[j][0]): j += 1] *)
Definition rematch_scan (standings : list Row) : Op Z :=
  while_ (Datatypes.S (List.length standings))
    (fun j =>
       if j <? len standings - 1 then
         r0 <- index standings 0 ;;
         rj <- index standings j ;;
         rematchCheck (s_id r0) (s_id rj)
       else ret false)
    (fun j => ret (j + 1))
    1.

(** One iteration of the outer loop, on the loop state
    [(standings, ret)]. *)
Definition pairing_round (st : list Row * list Pair)
    : Op (list Row * list Pair) :=
  let standings := fst st in
  let result := snd st in
  standings <- (if negb (len standings mod 2 =? 0)
               then assign_bye standings
               else ret standings) ;;
  j <- rematch_scan standings ;;
  r0 <- index standings 0 ;;
  rj <- index standings j ;;
  let temp := (s_id r0, s_name r0, s_id rj, s_name rj) in
  standings <- pop standings 0 ;;
  standings <- pop standings (j - 1) ;;
  ret (standings, result ++ [temp]).

Definition swissPairings : Op (list Pair) :=
  cur <- open_cursor ;;
  standings <- playerStandings ;;
  st <- while_ (Datatypes.S (List.length standings))
          (fun st => ret (0 <? len (fst st)))
          pairing_round
          (standings, []) ;;
  ret (snd st).

End Standings.

(** ** Reading the match history *)

(** What [checkBye] and [rematchCheck] answer on a reachable store, as
    predicates on the match history (lemmas [checkBye_reachable] and
    [rematchCheck_reachable]). *)
Definition hadBye (h : list MatchRecord) (p : Z) : bool :=
  existsb (fun m => (fst m =? p) && (snd m =? -1)) h.

Definition isRematch (h : list MatchRecord) (p1 p2 : Z) : bool :=
  existsb (fun m => ((fst m =? p1) && (snd m =? p2))
                    || ((fst m =? p2) && (snd m =? p1))) h.

(** The database after a bye has been reported for [p]: the two statements
    of [reportBye], in order. *)
Definition record_bye (p : Z) (d : Database) : Database :=
  sql_insert_match p (-1) (sql_add_win p d).

(** The number of rows at the head of [l] whose player already had a bye. *)
Fixpoint leading_byes (h : list MatchRecord) (l : list Row) : nat :=
  match l with
  | [] => O
  | r :: l' => if hadBye h (s_id r) then Datatypes.S (leading_byes h l') else O
  end.

(** The number of candidates the rematch scan steps over: it stops at the
    first candidate that is no rematch, and in any case at the last one. *)
Fixpoint skipped (h : list MatchRecord) (p : Z) (cands : list Row) : nat :=
  match cands with
  | [] => O
  | c :: cs =>
      match cs with
      | [] => O
      | _ :: _ =>
          if isRematch h p (s_id c) then Datatypes.S (skipped h p cs) else O
      end
  end.

Definition pair_of (r1 r2 : Row) : Pair :=
  (s_id r1, s_name r1, s_id r2, s_name r2).

(** [Pairing h s ps]: [ps] is obtained from the working sequence [s] by
    repeatedly pairing its head [p1] with the candidate [p2] that follows a
    block [l1] of rematches and is itself either no rematch or the last
    candidate, and removing both. *)
Inductive Pairing (h : list MatchRecord) : list Row -> list Pair -> Prop :=
| Pairing_nil : Pairing h [] []
| Pairing_cons p1 l1 p2 l2 ps :
    Forall (fun c => isRematch h (s_id p1) (s_id c) = true) l1 ->
    l2 = [] \/ isRematch h (s_id p1) (s_id p2) = false ->
    Pairing h (l1 ++ l2) ps ->
    Pairing h (p1 :: l1 ++ p2 :: l2) (pair_of p1 p2 :: ps).

(** The player ids of a pairing list, in order of appearance. *)
Definition pair_ids (ps : list Pair) : list Z :=
  flat_map (fun t : Pair =>
              match t with (id1, _, id2, _) => [id1; id2] end) ps.

(** The list [playerStandings] hands to its caller. *)
Definition standings_list (player_standings : Database -> list Row)
    (d : Database) : list Row :=
  if len (player_standings d) =? 0 then sql_players_by_wins d
  else player_standings d.

(** The player [r] a bye goes to in the working sequence [s = a ++ r :: b]:
    the last one that had no bye, or the last one of all when every player
    had a bye. *)
Definition bye_choice (h : list MatchRecord) (s a : list Row) (r : Row)
    (b : list Row) : Prop :=
  s = a ++ r :: b
  /\ ((hadBye h (s_id r) = false
       /\ Forall (fun x => hadBye h (s_id x) = true) b)
      \/ (b = [] /\ Forall (fun x => hadBye h (s_id x) = true) s)).

(** [AvoidsRematches h s ps]: [ps] is formed from the working sequence [s]
    by pairing its head [p1] with one of the candidates behind it and
    removing both, and no pair is a rematch that one of the candidates
    present at that moment would have avoided. *)
Inductive AvoidsRematches (h : list MatchRecord)
    : list Row -> list Pair -> Prop :=
| Avoids_nil : AvoidsRematches h [] []
| Avoids_cons p1 before p2 after ps :
    ~ (isRematch h (s_id p1) (s_id p2) = true
       /\ exists c, In c (before ++ p2 :: after)
                    /\ isRematch h (s_id p1) (s_id c) = false) ->
    AvoidsRematches h (before ++ after) ps ->
    AvoidsRematches h (p1 :: before ++ p2 :: after) (pair_of p1 p2 :: ps).

(** The working sequence the pairing starts from: the standings, less the
    player who receives the bye when their number is odd. *)
Definition paired_rows (standings s0 : list Row) : Prop :=
  (Nat.even (List.length standings) = true /\ s0 = standings)
  \/ (Nat.even (List.length standings) = false
      /\ exists a r b, standings = a ++ r :: b /\ s0 = a ++ b).

(** [matches_played = wins + losses], for every player. *)
Definition consistent (d : Database) : Prop :=
  Forall (fun p => p_matches_played p = p_wins p + p_losses p) (players d).

Definition player_exists (id : Z) (d : Database) : bool :=
  existsb (fun p => p_id p =? id) (players d).

(** ** The standings view *)

(** The wins of the player with id [id]; the bye's opponent [-1] and any
    other id without a row count for nothing. *)
Definition wins_of (d : Database) (id : Z) : Z :=
  match find (fun p => p_id p =? id) (players d) with
  | Some p => p_wins p
  | None => 0
  end.

(** The opponents [id] has faced, one entry per match. *)
Definition opponents (h : list MatchRecord) (id : Z) : list Z :=
  flat_map (fun m => (if fst m =? id then [snd m] else [])
                     ++ (if snd m =? id then [fst m] else [])) h.

(** Opponents' match wins: the sum of the wins of every opponent faced. *)
Definition omw (d : Database) (id : Z) : Z :=
  fold_right Z.add 0 (map (wins_of d) (opponents (match_history d) id)).

(** [ORDER BY wins DESC, omw DESC] *)
Definition wins_omw_desc (d : Database) (p q : Player) : bool :=
  (p_wins q <? p_wins p)
  || ((p_wins q =? p_wins p) && (omw d (p_id q) <=? omw d (p_id p))).

(** Modelled from the spec: the view [player_standings] is defined in the
    schema, which is not part of the source file.  It ranks the players by
    descending wins and then by descending opponents' match wins, and has no
    rows while table [match_history] is empty (the case [playerStandings]
    handles with its second query). *)
Definition player_standings_view (d : Database) : list Row :=
  match match_history d with
  | [] => []
  | _ :: _ => map row_of_player (order_by (wins_omw_desc d) (players d))
  end.

(** The ranking of the standings: wins do not increase down the list and,
    among equal wins, opponents' match wins do not increase. *)
Definition ranked_above (d : Database) (r1 r2 : Row) : Prop :=
  s_wins r2 <= s_wins r1
  /\ (s_wins r1 = s_wins r2 -> omw d (s_id r2) <= omw d (s_id r1)).

(** ** Small tournaments *)

Definition after {A} (m : Op A) (w : World) : World := snd (m w).

Definition no_players : World := mkWorld true (mkDatabase [] [] 1) [].

(** [registerPlayer] called once per name, as in the test run at the end of
    the source file. *)
Definition tournament_of (names : list string) : World :=
  fold_left (fun w name => after (registerPlayer name) w) names no_players.

Definition one_player : World := tournament_of ["Bill"%string].

Definition three_players : World :=
  tournament_of ["Bill"%string; "Heather"%string; "Rob"%string].

Definition four_players : World :=
  tournament_of ["Bill"%string; "Heather"%string; "Rob"%string;
                 "Alicia"%string].

(** Four players after Bill beat Heather and Rob beat Alicia. *)
Definition four_players_round_two : World :=
  after (reportMatch 3 4) (after (reportMatch 1 2) four_players).

(** Four players after Bill has beaten each of the other three. *)
Definition four_players_all_met : World :=
  after (reportMatch 1 4)
    (after (reportMatch 1 3) (after (reportMatch 1 2) four_players)).

(** Three players after Rob had a bye. *)
Definition three_players_one_bye : World :=
  after (reportBye 3) three_players.

(** Three players before their third round: Rob had the first bye and
    Heather the second, and Bill won both of his matches. *)
Definition three_players_round_three : World :=
  after (reportMatch 1 3)
    (after (reportBye 2) (after (reportMatch 1 2) three_players_one_bye)).

(** Three players after each of them had a bye. *)
Definition three_players_all_byes : World :=
  after (reportBye 1) (after (reportBye 2) (after (reportBye 3) three_players)).

(** The nine players of the test run at the end of the source file. *)
Definition nine_players : World :=
  tournament_of ["Bill"%string; "Heather"%string; "Rob"%string;
                 "Alicia"%string; "Jordan"%string; "Jess"%string;
                 "Peony"%string; "Jane"%string; "Marlin"%string].

(** A server that cannot be reached. *)
Definition unreachable_store : World :=
  mkWorld false (store three_players) [].

(** The world after [connect] has printed its message. *)
Definition connect_failed (w : World) : World :=
  print ["<Error: could not connect to "%string; "tournament"%string;
         ">"%string] w.

(** ** The test run at the end of the source file *)

(** [determineWinner]: [draw] stands for the outcome of
    [random.random() > .5]. *)
Definition determineWinner (draw : bool) (p1 p2 : Z) : Z * Z :=
  if draw then (p1, p2) else (p2, p1).

(** [for pair in pairs:
       results = determineWinner(pair[0], pair[2])
       reportMatch(results[0], results[1])]
    where [draws n] is the draw of the [n]-th pair. *)
Fixpoint report_pairs (draws : nat -> bool) (pairs : list Pair) : Op unit :=
  match pairs with
  | [] => ret tt
  | t :: rest =>
      let results :=
        determineWinner (draws O) (fst (fst (fst t))) (snd (fst t)) in
      reportMatch (fst results) (snd results) ;;;
      report_pairs (fun n => draws (Datatypes.S n)) rest
  end.

(** The body of [for i in range(0, 3)]: one round is paired and played. *)
Definition play_round (player_standings : Database -> list Row)
    (draws : nat -> bool) : Op unit :=
  pairs <- swissPairings player_standings ;;
  report_pairs draws pairs.

(** ** Reading the counters *)

(** The number of matches the first row with id [id] has played; [0] when
    there is no such row. *)
Definition matches_of (d : Database) (id : Z) : Z :=
  match find (fun p => p_id p =? id) (players d) with
  | Some p => p_matches_played p
  | None => 0
  end.




(** The rows [a, b, ..] of a list taken two by two: [(a, b), ..]; a last
    row without a partner is left out. *)
Fixpoint adjacent_pairs (s : list Row) : list Pair :=
  match s with
  | r1 :: r2 :: rest => pair_of r1 r2 :: adjacent_pairs rest
  | _ => []
  end.

(** No two rows that are neighbours in [adjacent_pairs] have met. *)
Fixpoint neighbours_unmet (h : list MatchRecord) (s : list Row) : Prop :=
  match s with
  | r1 :: r2 :: rest =>
      isRematch h (s_id r1) (s_id r2) = false /\ neighbours_unmet h rest
  | _ => True
  end.

(** [m] run in [w] only adds records at the end of the match history. *)
Definition keeps_history {A} (m : Op A) (w : World) : Prop :=
  exists added,
    match_history (store (after m w)) = match_history (store w) ++ added.



(** The records [report_pairs] passes to [reportMatch], in order. *)
Fixpoint results_of (draws : nat -> bool) (pairs : list Pair)
    : list MatchRecord :=
  match pairs with
  | [] => []
  | t :: rest =>
      determineWinner (draws O) (fst (fst (fst t))) (snd (fst t))
      :: results_of (fun n => draws (Datatypes.S n)) rest
  end.

(** [for i in range(0, n)], the rounds of the test run; [draws i] decides
    the matches of round [i]. *)
Fixpoint play_rounds (player_standings : Database -> list Row)
    (draws : nat -> nat -> bool) (i n : nat) : Op unit :=
  match n with
  | O => ret tt
  | Datatypes.S n' =>
      play_round player_standings (draws i) ;;;
      play_rounds player_standings draws (Datatypes.S i) n'
  end.

(** The test run from its first line to the final [playerStandings()]; the
    lines it prints after that are left out. *)
Definition test_run (player_standings : Database -> list Row)
    (draws : nat -> nat -> bool) : Op (list Row) :=
  deleteMatches ;;;
  deletePlayers ;;;
  registerPlayer "Bill" ;;;
  registerPlayer "Heather" ;;;
  registerPlayer "Rob" ;;;
  registerPlayer "Alicia" ;;;
  registerPlayer "Jordan" ;;;
  registerPlayer "Jess" ;;;
  registerPlayer "Peony" ;;;
  registerPlayer "Jane" ;;;
  registerPlayer "Marlin" ;;;
  play_rounds player_standings draws 0 3 ;;;
  playerStandings player_standings.

(** The standings name the registered players, each once. *)
Definition lists_players (player_standings : Database -> list Row) : Prop :=
  forall d,
    Permutation (map s_id (standings_list player_standings d))
      (map p_id (players d)).

(** [subseq l s]: the elements of [l] occur in [s], in the order of [l]. *)
Inductive subseq {A : Type} : list A -> list A -> Prop :=
| subseq_nil : subseq [] []
| subseq_skip x l s : subseq l s -> subseq l (x :: s)
| subseq_keep x l s : subseq l s -> subseq (x :: l) (x :: s).

(** [e] is an error about an unknown player: [reportMatch] raises it only
    when the winner's or the loser's id has no row in table [players]. *)
Definition signals_unknown_player (e : exn) : Prop :=
  forall w winner loser,
    fst (reportMatch winner loser w) = Raise e ->
    player_exists winner (store w) = false
    \/ player_exists loser (store w) = false.

(** ** The monad and the loops *)

Lemma bind_Ok {A B} (m : Op A) (k : A -> Op B) w a w' :
  m w = (Ok a, w') -> bind m k w = k a w'.
Proof. intros E. unfold bind. now rewrite E. Qed.

Lemma bind_Raise {A B} (m : Op A) (k : A -> Op B) w e w' :
  m w = (Raise e, w') -> bind m k w = (Raise e, w').
Proof. intros E. unfold bind. now rewrite E. Qed.

Lemma bind_ret {A B} (a : A) (k : A -> Op B) w :
  bind (ret a) k w = k a w.
Proof. reflexivity. Qed.

Lemma while_false {S} fuel (cond : S -> Op bool) body s w w' :
  cond s w = (Ok false, w') ->
  while_ (Datatypes.S fuel) cond body s w = (Ok s, w').
Proof. intros E. simpl. now rewrite (bind_Ok _ _ _ _ _ E). Qed.

Lemma while_true {S} fuel (cond : S -> Op bool) body s w w' s' w'' :
  cond s w = (Ok true, w') ->
  body s w' = (Ok s', w'') ->
  while_ (Datatypes.S fuel) cond body s w = while_ fuel cond body s' w''.
Proof.
  intros E1 E2. simpl.
  rewrite (bind_Ok _ _ _ _ _ E1). now rewrite (bind_Ok _ _ _ _ _ E2).
Qed.

Lemma while_raise {S} fuel (cond : S -> Op bool) body s w w' e w'' :
  cond s w = (Ok true, w') ->
  body s w' = (Raise e, w'') ->
  while_ (Datatypes.S fuel) cond body s w = (Raise e, w'').
Proof.
  intros E1 E2. simpl.
  rewrite (bind_Ok _ _ _ _ _ E1). now rewrite (bind_Raise _ _ _ _ _ E2).
Qed.

(** ** Python lists *)

Lemma len_app {A} (l1 l2 : list A) : len (l1 ++ l2) = len l1 + len l2.
Proof. unfold len. rewrite length_app. lia. Qed.

Lemma len_cons {A} (a : A) l : len (a :: l) = 1 + len l.
Proof. unfold len. simpl List.length. lia. Qed.

Lemma len_nonneg {A} (l : list A) : 0 <= len l.
Proof. unfold len. lia. Qed.

Lemma py_position_nonneg {A} (l : list A) (n : nat) :
  (n < List.length l)%nat -> py_position l (Z.of_nat n) = Some n.
Proof.
  intros Hn. unfold py_position, len.
  replace (0 <=? Z.of_nat n) with true by (symmetry; apply Z.leb_le; lia).
  replace (Z.of_nat n <? Z.of_nat (List.length l)) with true
    by (symmetry; apply Z.ltb_lt; lia).
  simpl. now rewrite Nat2Z.id.
Qed.

Lemma py_position_minus_one {A} (l : list A) :
  l <> [] -> py_position l (-1) = Some (List.length l - 1)%nat.
Proof.
  intros Hl. unfold py_position, len.
  assert (0 < List.length l)%nat by (destruct l; [congruence | simpl; lia]).
  replace (- Z.of_nat (List.length l) <=? -1) with true
    by (symmetry; apply Z.leb_le; lia).
  simpl. f_equal. lia.
Qed.

Lemma index_app_middle {A} (l1 : list A) a l2 w :
  index (l1 ++ a :: l2) (len l1) w = (Ok a, w).
Proof.
  unfold index, len. rewrite py_position_nonneg.
  - now rewrite nth_error_app2, Nat.sub_diag by lia.
  - rewrite length_app. simpl. lia.
Qed.

Lemma pop_app_middle {A} (l1 : list A) a l2 w :
  pop (l1 ++ a :: l2) (len l1) w = (Ok (l1 ++ l2), w).
Proof.
  unfold pop, len. rewrite py_position_nonneg.
  - unfold ret. do 2 f_equal. induction l1; simpl; [reflexivity | now f_equal].
  - rewrite length_app. simpl. lia.
Qed.

Lemma index_minus_one {A} (l : list A) a w :
  index (l ++ [a]) (-1) w = (Ok a, w).
Proof.
  unfold index. rewrite py_position_minus_one by (destruct l; discriminate).
  rewrite length_app. simpl.
  replace (List.length l + 1 - 1)%nat with (List.length l) by lia.
  now rewrite nth_error_app2, Nat.sub_diag by lia.
Qed.

Lemma pop_minus_one {A} (l : list A) a w :
  pop (l ++ [a]) (-1) w = (Ok l, w).
Proof.
  unfold pop. rewrite py_position_minus_one by (destruct l; discriminate).
  rewrite length_app. simpl.
  replace (List.length l + 1 - 1)%nat with (List.length l) by lia.
  unfold ret. do 2 f_equal. induction l; simpl; [reflexivity | now f_equal].
Qed.

(** ** Operations on a reachable store *)

Lemma open_cursor_reachable w :
  reachable w = true -> open_cursor w = (Ok (store w), w).
Proof.
  intros R. unfold open_cursor, connect, try_except, psycopg2_connect, bind.
  now rewrite R.
Qed.

Lemma open_cursor_unreachable w :
  reachable w = false -> open_cursor w = (Raise TypeError, connect_failed w).
Proof.
  intros R. unfold open_cursor, connect, try_except, psycopg2_connect, bind.
  now rewrite R.
Qed.

Lemma open_cursor_cases w :
  open_cursor w = (Ok (store w), w)
  \/ open_cursor w = (Raise TypeError, connect_failed w).
Proof.
  destruct (reachable w) eqn:R.
  - left. now apply open_cursor_reachable.
  - right. now apply open_cursor_unreachable.
Qed.

Lemma count_zero_existsb {A} (f : A -> bool) (l : list A) :
  (len (filter f l) =? 0) = negb (existsb f l).
Proof.
  induction l as [|a l IH]; simpl; [reflexivity|].
  destruct (f a); simpl; [reflexivity | exact IH].
Qed.

Lemma checkBye_reachable p w :
  reachable w = true ->
  checkBye p w = (Ok (hadBye (match_history (store w)) p), w).
Proof.
  intros R. unfold checkBye.
  rewrite (bind_Ok _ _ _ _ _ (open_cursor_reachable w R)).
  unfold sql_count_byes, hadBye. rewrite count_zero_existsb.
  now destruct (existsb _ _).
Qed.

Lemma rematchCheck_reachable p1 p2 w :
  reachable w = true ->
  rematchCheck p1 p2 w = (Ok (isRematch (match_history (store w)) p1 p2), w).
Proof.
  intros R. unfold rematchCheck.
  rewrite (bind_Ok _ _ _ _ _ (open_cursor_reachable w R)).
  unfold sql_count_rematch, isRematch. rewrite count_zero_existsb.
  now destruct (existsb _ _).
Qed.

Lemma reportBye_reachable p w :
  reachable w = true ->
  reportBye p w = (Ok tt, set_store (record_bye p (store w)) w).
Proof.
  intros R. unfold reportBye.
  now rewrite (bind_Ok _ _ _ _ _ (open_cursor_reachable w R)).
Qed.

(** ** The bye scan *)

Lemma bye_scan_loop h w (front : list Row) :
  reachable w = true -> match_history (store w) = h ->
  forall (done : list Row) (fuel : nat),
    front ++ done <> [] ->
    Forall (fun r => hadBye h (s_id r) = true) done ->
    (List.length front < fuel)%nat ->
    while_ fuel
      (fun k =>
         r <- index (front ++ done) (len (front ++ done) - k) ;;
         b <- checkBye (s_id r) ;;
         ret (b && (len (front ++ done) - k >=? 0)))
      (fun k => ret (k + 1))
      (len done + 1) w
    = (Ok (len done + Z.of_nat (leading_byes h (rev front)) + 1), w).
Proof.
  intros R Hh.
  induction front as [|x front IH] using rev_ind; intros done fuel Hne Hd Hf.
  - (* every row was stepped over: the index has wrapped around to -1 *)
    simpl in *. destruct fuel as [|fuel]; [lia|].
    destruct (exists_last Hne) as (done' & r & ->).
    rewrite Z.add_0_r.
    apply while_false.
    replace (len (done' ++ [r]) - (len (done' ++ [r]) + 1)) with (-1) by lia.
    rewrite (bind_Ok _ _ _ _ _ (index_minus_one done' r w)).
    rewrite (bind_Ok _ _ _ _ _ (checkBye_reachable (s_id r) w R)).
    rewrite Hh. unfold ret. do 2 f_equal.
    now rewrite andb_false_r.
  - destruct fuel as [|fuel]; [lia|].
    rewrite length_app in Hf. simpl in Hf.
    rewrite rev_app_distr. cbn [rev app leading_byes].
    assert (Ei : len ((front ++ [x]) ++ done) - (len done + 1) = len front).
    { rewrite !len_app, len_cons. unfold len at 2. simpl. lia. }
    assert (Ex : index ((front ++ [x]) ++ done) (len front) w = (Ok x, w)).
    { rewrite <- app_assoc. simpl. apply index_app_middle. }
    destruct (hadBye h (s_id x)) eqn:Hx.
    + erewrite while_true.
      3: reflexivity.
      2:{ rewrite Ei. rewrite (bind_Ok _ _ _ _ _ Ex).
          rewrite (bind_Ok _ _ _ _ _ (checkBye_reachable (s_id x) w R)).
          rewrite Hh, Hx. unfold ret. do 2 f_equal.
          simpl. apply Z.geb_le. apply len_nonneg. }
      specialize (IH (x :: done) fuel).
      rewrite <- app_assoc in *. cbn [app] in *.
      rewrite len_cons in IH.
      replace (len done + 1) with (1 + len done) by lia.
      rewrite IH.
      * do 2 f_equal. lia.
      * destruct front; discriminate.
      * constructor; assumption.
      * lia.
    + rewrite while_false with (w' := w).
      * do 2 f_equal. lia.
      * rewrite Ei. rewrite (bind_Ok _ _ _ _ _ Ex).
        rewrite (bind_Ok _ _ _ _ _ (checkBye_reachable (s_id x) w R)).
        now rewrite Hh, Hx.
Qed.

Lemma bye_scan_reachable w (standings : list Row) :
  reachable w = true -> standings <> [] ->
  bye_scan standings w
  = (Ok (Z.of_nat (leading_byes (match_history (store w)) (rev standings))
         + 1), w).
Proof.
  intros R Hne. unfold bye_scan.
  pose proof (bye_scan_loop (match_history (store w)) w standings R eq_refl
                [] (Datatypes.S (Datatypes.S (List.length standings)))) as H.
  rewrite app_nil_r in H. apply H; auto; lia.
Qed.

Lemma leading_byes_all h (l : list Row) :
  Forall (fun r => hadBye h (s_id r) = true) l ->
  leading_byes h l = List.length l.
Proof.
  induction 1 as [|r l Hr _ IH]; simpl; [reflexivity|].
  now rewrite Hr, IH.
Qed.

Lemma leading_byes_stop h (l1 : list Row) r l2 :
  Forall (fun r => hadBye h (s_id r) = true) l1 ->
  hadBye h (s_id r) = false ->
  leading_byes h (l1 ++ r :: l2) = List.length l1.
Proof.
  induction 1 as [|x l Hx _ IH]; intros Hr; simpl.
  - now rewrite Hr.
  - now rewrite Hx, IH.
Qed.

(** The bye goes to the last row whose player had no bye yet. *)
Lemma assign_bye_fresh w (a : list Row) r (b : list Row) :
  reachable w = true ->
  hadBye (match_history (store w)) (s_id r) = false ->
  Forall (fun x => hadBye (match_history (store w)) (s_id x) = true) b ->
  assign_bye (a ++ r :: b) w
  = (Ok (a ++ b), set_store (record_bye (s_id r) (store w)) w).
Proof.
  intros R Hr Hb. unfold assign_bye.
  rewrite (bind_Ok _ _ _ _ _
             (bye_scan_reachable w (a ++ r :: b) R
                ltac:(destruct a; discriminate))).
  rewrite rev_app_distr. cbn [rev]. rewrite <- app_assoc. cbn [app].
  rewrite leading_byes_stop by (try apply Forall_rev; assumption).
  rewrite length_rev.
  replace (len (a ++ r :: b) - (Z.of_nat (List.length b) + 1)) with (len a)
    by (rewrite len_app, len_cons; unfold len; lia).
  rewrite (bind_Ok _ _ _ _ _ (index_app_middle a r b w)).
  rewrite (bind_Ok _ _ _ _ _ (reportBye_reachable (s_id r) w R)).
  apply pop_app_middle.
Qed.

(** When every player had a bye, the scan runs down to index [-1], which
    Python reads as the last row. *)
Lemma assign_bye_wraps w (a : list Row) r :
  reachable w = true ->
  Forall (fun x => hadBye (match_history (store w)) (s_id x) = true)
    (a ++ [r]) ->
  assign_bye (a ++ [r]) w
  = (Ok a, set_store (record_bye (s_id r) (store w)) w).
Proof.
  intros R Hall. unfold assign_bye.
  rewrite (bind_Ok _ _ _ _ _
             (bye_scan_reachable w (a ++ [r]) R
                ltac:(destruct a; discriminate))).
  rewrite leading_byes_all by (apply Forall_rev; assumption).
  rewrite length_rev.
  replace (len (a ++ [r]) - (Z.of_nat (List.length (a ++ [r])) + 1))
    with (-1) by (unfold len; lia).
  rewrite (bind_Ok _ _ _ _ _ (index_minus_one a r w)).
  rewrite (bind_Ok _ _ _ _ _ (reportBye_reachable (s_id r) w R)).
  apply pop_minus_one.
Qed.

(** Every non-empty working sequence falls under one of the two cases. *)
Lemma bye_cases h (s : list Row) :
  s <> [] ->
  (exists a r b, s = a ++ r :: b /\ hadBye h (s_id r) = false
                 /\ Forall (fun x => hadBye h (s_id x) = true) b)
  \/ (exists a r, s = a ++ [r]
                  /\ Forall (fun x => hadBye h (s_id x) = true) s).
Proof.
  induction s as [|x s IH]; [congruence|]; intros _.
  destruct s as [|y s].
  - destruct (hadBye h (s_id x)) eqn:Hx.
    + right. exists [], x. split; [reflexivity|]. now constructor.
    + left. exists [], x, []. now repeat split.
  - destruct IH as [(a & r & b & E & Hr & Hb) | (a & r & E & Hall)];
      [discriminate | |].
    + left. exists (x :: a), r, b. rewrite E. now repeat split.
    + destruct (hadBye h (s_id x)) eqn:Hx.
      * right. exists (x :: a), r. rewrite E at 1. split; [reflexivity|].
        now constructor.
      * left. exists [], x, (y :: s). now repeat split.
Qed.

(** ** The rematch scan *)

Lemma skipped_stop h p (l1 : list Row) p2 (l2 : list Row) :
  Forall (fun c => isRematch h p (s_id c) = true) l1 ->
  l2 = [] \/ isRematch h p (s_id p2) = false ->
  skipped h p (l1 ++ p2 :: l2) = List.length l1.
Proof.
  intros H1 H2. induction H1 as [|x l1 Hx _ IH]; cbn [app skipped].
  - destruct l2 as [|y l2]; [reflexivity|].
    destruct H2 as [H2|H2]; [discriminate | now rewrite H2].
  - destruct (l1 ++ p2 :: l2) eqn:E.
    + now destruct l1.
    + rewrite Hx. now rewrite IH.
Qed.

Lemma skipped_split h p (cands : list Row) :
  cands <> [] ->
  exists l1 p2 l2,
    cands = l1 ++ p2 :: l2
    /\ Forall (fun c => isRematch h p (s_id c) = true) l1
    /\ (l2 = [] \/ isRematch h p (s_id p2) = false).
Proof.
  induction cands as [|c cs IH]; [congruence|]; intros _.
  destruct cs as [|c' cs].
  - exists [], c, []. repeat split; auto.
  - destruct (isRematch h p (s_id c)) eqn:Hc.
    + destruct IH as (l1 & p2 & l2 & E & H1 & H2); [discriminate|].
      exists (c :: l1), p2, l2. rewrite E. repeat split; auto.
    + exists [], c, (c' :: cs). repeat split; auto.
Qed.

Lemma rematch_scan_loop h w p1 (rest : list Row) :
  reachable w = true -> match_history (store w) = h ->
  forall (pre : list Row) (fuel : nat),
    (List.length rest < fuel)%nat ->
    while_ fuel
      (fun j =>
         if j <? len (p1 :: pre ++ rest) - 1 then
           r0 <- index (p1 :: pre ++ rest) 0 ;;
           rj <- index (p1 :: pre ++ rest) j ;;
           rematchCheck (s_id r0) (s_id rj)
         else ret false)
      (fun j => ret (j + 1))
      (len pre + 1) w
    = (Ok (len pre + 1 + Z.of_nat (skipped h (s_id p1) rest)), w).
Proof.
  intros R Hh.
  induction rest as [|c rest IH]; intros pre fuel Hf.
  - destruct fuel as [|fuel]; [simpl in Hf; lia|].
    cbn [skipped]. rewrite Z.add_0_r. apply while_false.
    replace (len pre + 1 <? len (p1 :: pre ++ []) - 1) with false; auto.
    symmetry. apply Z.ltb_ge. rewrite len_cons, len_app. unfold len.
    cbn [List.length]. lia.
  - destruct fuel as [|fuel]; [simpl in Hf; lia|].
    simpl in Hf. cbn [skipped].
    destruct rest as [|c' rest].
    + rewrite Z.add_0_r. apply while_false.
      replace (len pre + 1 <? len (p1 :: pre ++ [c]) - 1) with false; auto.
      symmetry. apply Z.ltb_ge. rewrite len_cons, len_app. unfold len.
      cbn [List.length]. lia.
    + assert (Ec : (fun j =>
                      if j <? len (p1 :: pre ++ c :: c' :: rest) - 1 then
                        r0 <- index (p1 :: pre ++ c :: c' :: rest) 0 ;;
                        rj <- index (p1 :: pre ++ c :: c' :: rest) j ;;
                        rematchCheck (s_id r0) (s_id rj)
                      else ret false) (len pre + 1) w
                   = (Ok (isRematch h (s_id p1) (s_id c)), w)).
      { replace (len pre + 1 <? len (p1 :: pre ++ c :: c' :: rest) - 1)
          with true.
        2:{ symmetry. apply Z.ltb_lt. rewrite len_cons, len_app, !len_cons.
            pose proof (len_nonneg rest). lia. }
        rewrite (bind_Ok _ _ _ _ _
                   (index_app_middle [] p1 (pre ++ c :: c' :: rest) w)).
        replace (len pre + 1) with (len (p1 :: pre))
          by (rewrite len_cons; lia).
        rewrite (bind_Ok _ _ _ _ _
                   (index_app_middle (p1 :: pre) c (c' :: rest) w)).
        rewrite rematchCheck_reachable by assumption. now rewrite Hh. }
      destruct (isRematch h (s_id p1) (s_id c)) eqn:Hc.
      * rewrite (while_true _ _ _ _ _ _ _ _ Ec eq_refl).
        assert (Hf' : (List.length (c' :: rest) < fuel)%nat)
          by (simpl in *; lia).
        specialize (IH (pre ++ [c]) fuel Hf').
        rewrite <- app_assoc in IH. cbn [app] in IH.
        rewrite len_app in IH. change (len [c]) with 1 in IH.
        rewrite IH. do 2 f_equal. lia.
      * rewrite Z.add_0_r. apply while_false. exact Ec.
Qed.

Lemma rematch_scan_reachable w p1 (cands : list Row) :
  reachable w = true ->
  rematch_scan (p1 :: cands) w
  = (Ok (1 + Z.of_nat (skipped (match_history (store w)) (s_id p1) cands)),
     w).
Proof.
  intros R. unfold rematch_scan.
  apply (rematch_scan_loop (match_history (store w)) w p1 cands R eq_refl []).
  simpl. lia.
Qed.

(** ** One round of the outer loop *)

(** On a working sequence that needs no bye, the round pairs the head with
    the candidate the scan stops at and removes both. *)
Lemma pair_head_reachable w p1 (l1 : list Row) p2 (l2 : list Row) :
  reachable w = true ->
  Forall (fun c => isRematch (match_history (store w)) (s_id p1) (s_id c)
                   = true) l1 ->
  l2 = [] \/ isRematch (match_history (store w)) (s_id p1) (s_id p2) = false ->
  forall acc,
    (j <- rematch_scan (p1 :: l1 ++ p2 :: l2) ;;
     r0 <- index (p1 :: l1 ++ p2 :: l2) 0 ;;
     rj <- index (p1 :: l1 ++ p2 :: l2) j ;;
     let temp := (s_id r0, s_name r0, s_id rj, s_name rj) in
     standings <- pop (p1 :: l1 ++ p2 :: l2) 0 ;;
     standings <- pop standings (j - 1) ;;
     ret (standings, acc ++ [temp])) w
    = (Ok (l1 ++ l2, acc ++ [pair_of p1 p2]), w).
Proof.
  intros R H1 H2 acc.
  rewrite (bind_Ok _ _ _ _ _ (rematch_scan_reachable w p1 _ R)).
  rewrite skipped_stop by assumption.
  rewrite (bind_Ok _ _ _ _ _ (index_app_middle [] p1 (l1 ++ p2 :: l2) w)).
  replace (1 + Z.of_nat (List.length l1)) with (len (p1 :: l1))
    by (rewrite len_cons; reflexivity).
  rewrite (bind_Ok _ _ _ _ _ (index_app_middle (p1 :: l1) p2 l2 w)).
  rewrite (bind_Ok _ _ _ _ _ (pop_app_middle [] p1 (l1 ++ p2 :: l2) w)).
  cbn [app].
  replace (len (p1 :: l1) - 1) with (len l1) by (rewrite len_cons; lia).
  rewrite (bind_Ok _ _ _ _ _ (pop_app_middle l1 p2 l2 w)).
  reflexivity.
Qed.

Lemma len_parity {A} (l : list A) :
  (len l mod 2 =? 0) = Nat.even (List.length l).
Proof.
  unfold len.
  destruct (Nat.even (List.length l)) eqn:E.
  - apply Nat.even_spec in E. destruct E as [k E]. rewrite E.
    apply Z.eqb_eq. rewrite Nat2Z.inj_mul, Z.mul_comm. apply Z_mod_mult.
  - apply Z.eqb_neq.
    assert (O : Nat.odd (List.length l) = true)
      by (unfold Nat.odd; now rewrite E).
    apply Nat.odd_spec in O. destruct O as [k O]. rewrite O.
    rewrite Nat2Z.inj_add, Nat2Z.inj_mul. change (Z.of_nat 2) with 2.
    change (Z.of_nat 1) with 1. rewrite Z.add_comm, Z.mul_comm, Z_mod_plus_full.
    discriminate.
Qed.

Lemma pairing_round_even w p1 (l1 : list Row) p2 (l2 : list Row) acc :
  reachable w = true ->
  Nat.even (List.length (p1 :: l1 ++ p2 :: l2)) = true ->
  Forall (fun c => isRematch (match_history (store w)) (s_id p1) (s_id c)
                   = true) l1 ->
  l2 = [] \/ isRematch (match_history (store w)) (s_id p1) (s_id p2) = false ->
  pairing_round (p1 :: l1 ++ p2 :: l2, acc) w
  = (Ok (l1 ++ l2, acc ++ [pair_of p1 p2]), w).
Proof.
  intros R Ev H1 H2. unfold pairing_round. cbn [fst snd].
  rewrite len_parity, Ev. cbn [negb]. rewrite bind_ret.
  now apply pair_head_reachable.
Qed.

Lemma pairing_round_odd w w' (s : list Row) p1 (l1 : list Row) p2
    (l2 : list Row) acc :
  Nat.even (List.length s) = false ->
  assign_bye s w = (Ok (p1 :: l1 ++ p2 :: l2), w') ->
  reachable w' = true ->
  Forall (fun c => isRematch (match_history (store w')) (s_id p1) (s_id c)
                   = true) l1 ->
  l2 = [] \/ isRematch (match_history (store w')) (s_id p1) (s_id p2) = false ->
  pairing_round (s, acc) w = (Ok (l1 ++ l2, acc ++ [pair_of p1 p2]), w').
Proof.
  intros Od Hb R H1 H2. unfold pairing_round. cbn [fst snd].
  rewrite len_parity, Od. cbn [negb]. rewrite (bind_Ok _ _ _ _ _ Hb).
  now apply pair_head_reachable.
Qed.

(** After the bye has been taken from a one-row standings list nothing is
    left to pair, and [standings[0]] raises. *)
Lemma pairing_round_single w w' (s : list Row) acc :
  Nat.even (List.length s) = false ->
  assign_bye s w = (Ok [], w') ->
  pairing_round (s, acc) w = (Raise IndexError, w').
Proof.
  intros Od Hb. unfold pairing_round. cbn [fst snd].
  rewrite len_parity, Od. cbn [negb]. rewrite (bind_Ok _ _ _ _ _ Hb).
  reflexivity.
Qed.

(** ** The outer loop *)

Lemma pairing_loop_even w :
  reachable w = true ->
  forall (n : nat) (s : list Row) (acc : list Pair) (fuel : nat),
    List.length s = (2 * n)%nat -> (n < fuel)%nat ->
    exists ps,
      while_ fuel (fun st => ret (0 <? len (fst st))) pairing_round (s, acc) w
      = (Ok ([], acc ++ ps), w)
      /\ Pairing (match_history (store w)) s ps.
Proof.
  intros R. induction n as [|n IH]; intros s acc fuel Hl Hf.
  - destruct s; [|discriminate]. destruct fuel as [|fuel]; [lia|].
    exists []. split; [|constructor]. rewrite app_nil_r.
    now apply while_false.
  - destruct s as [|p1 cands]; [discriminate|].
    destruct fuel as [|fuel]; [lia|].
    destruct (skipped_split (match_history (store w)) (s_id p1) cands)
      as (l1 & p2 & l2 & -> & H1 & H2).
    { destruct cands; [simpl in Hl; lia | discriminate]. }
    assert (Ev : Nat.even (List.length (p1 :: l1 ++ p2 :: l2)) = true).
    { rewrite Hl. apply Nat.even_spec. now exists (Datatypes.S n). }
    destruct (IH (l1 ++ l2) (acc ++ [pair_of p1 p2]) fuel) as (ps & E & P).
    { simpl in Hl. rewrite length_app in *. simpl in Hl. lia. }
    { lia. }
    exists (pair_of p1 p2 :: ps). split.
    + erewrite while_true.
      * rewrite E. now rewrite <- app_assoc.
      * reflexivity.
      * now apply pairing_round_even.
    + now constructor.
Qed.

(** ** [playerStandings] and [swissPairings] on a reachable store *)

Lemma playerStandings_reachable view w :
  reachable w = true ->
  playerStandings view w = (Ok (standings_list view (store w)), w).
Proof.
  intros R. unfold playerStandings.
  now rewrite (bind_Ok _ _ _ _ _ (open_cursor_reachable w R)).
Qed.

Lemma swissPairings_unfold view w :
  reachable w = true ->
  swissPairings view w
  = (st <- while_ (Datatypes.S (List.length (standings_list view (store w))))
             (fun st => ret (0 <? len (fst st)))
             (pairing_round)
             (standings_list view (store w), []) ;;
     ret (snd st)) w.
Proof.
  intros R. unfold swissPairings.
  rewrite (bind_Ok _ _ _ _ _ (open_cursor_reachable w R)).
  now rewrite (bind_Ok _ _ _ _ _ (playerStandings_reachable view w R)).
Qed.

Lemma swissPairings_even view w :
  reachable w = true ->
  Nat.even (List.length (standings_list view (store w))) = true ->
  exists ps,
    swissPairings view w = (Ok ps, w)
    /\ Pairing (match_history (store w)) (standings_list view (store w)) ps.
Proof.
  intros R Ev. rewrite swissPairings_unfold by assumption.
  apply Nat.even_spec in Ev. destruct Ev as [n Hn].
  destruct (pairing_loop_even w R n (standings_list view (store w)) []
              (Datatypes.S (List.length (standings_list view (store w)))))
    as (ps & E & P); [assumption | lia |].
  exists ps. split; [|assumption].
  now rewrite (bind_Ok _ _ _ _ _ E).
Qed.

Lemma assign_bye_choice h w (s a : list Row) r (b : list Row) :
  reachable w = true -> match_history (store w) = h ->
  bye_choice h s a r b ->
  assign_bye s w = (Ok (a ++ b), set_store (record_bye (s_id r) (store w)) w).
Proof.
  intros R <- [-> [[Hr Hb] | [-> Hall]]].
  - now apply assign_bye_fresh.
  - rewrite app_nil_r. now apply assign_bye_wraps.
Qed.

Lemma bye_choice_exists h (s : list Row) :
  s <> [] -> exists a r b, bye_choice h s a r b.
Proof.
  intros Hne.
  destruct (bye_cases h s Hne) as [(a & r & b & E & Hr & Hb) | (a & r & E & H)].
  - exists a, r, b. split; auto.
  - exists a, r, []. split; auto.
Qed.

Lemma swissPairings_odd view w (a : list Row) r (b : list Row) :
  reachable w = true ->
  Nat.even (List.length (standings_list view (store w))) = false ->
  bye_choice (match_history (store w)) (standings_list view (store w)) a r b ->
  (a ++ b = [] ->
   swissPairings view w
   = (Raise IndexError, set_store (record_bye (s_id r) (store w)) w))
  /\ (a ++ b <> [] ->
      exists ps,
        swissPairings view w
        = (Ok ps, set_store (record_bye (s_id r) (store w)) w)
        /\ Pairing (match_history (record_bye (s_id r) (store w))) (a ++ b)
             ps).
Proof.
  intros R Od Hc.
  pose proof (assign_bye_choice _ w _ a r b R eq_refl Hc) as Hb.
  rewrite swissPairings_unfold by assumption.
  set (s := standings_list view (store w)) in *.
  set (w' := set_store (record_bye (s_id r) (store w)) w) in *.
  assert (Hs : List.length s = Datatypes.S (List.length (a ++ b))).
  { destruct Hc as [E _]. rewrite E, !length_app. simpl. lia. }
  assert (Hcond : (fun st : list Row * list Pair => ret (0 <? len (fst st)))
                    (s, []) w = (Ok true, w)).
  { cbn [fst]. unfold ret. do 2 f_equal. apply Z.ltb_lt. unfold len. lia. }
  split.
  - intros E0. rewrite E0 in Hb.
    apply bind_Raise.
    exact (while_raise _ _ _ _ _ _ _ _ Hcond
             (pairing_round_single w w' s [] Od Hb)).
  - intros Hne.
    destruct (a ++ b) as [|p1 cands] eqn:Eab; [congruence|].
    assert (Hn : exists n, List.length cands = Datatypes.S (2 * n)).
    { assert (O : Nat.odd (List.length s) = true)
        by (unfold Nat.odd; now rewrite Od).
      apply Nat.odd_spec in O. destruct O as [k O].
      simpl in Hs. destruct k as [|k]; [lia|]. exists k. lia. }
    destruct Hn as [n Hn].
    destruct (skipped_split (match_history (store w')) (s_id p1) cands)
      as (l1 & p2 & l2 & -> & H1 & H2).
    { destruct cands; [discriminate | discriminate]. }
    destruct (pairing_loop_even w' R n (l1 ++ l2) ([] ++ [pair_of p1 p2])
                (List.length s)) as (ps & E & P).
    { rewrite length_app in *. simpl in Hn. lia. }
    { simpl in Hs. lia. }
    exists (pair_of p1 p2 :: ps). split.
    + rewrite (bind_Ok _ _ _ _ _
                 (eq_trans
                    (while_true _ _ _ _ _ _ _ _ Hcond
                       (pairing_round_odd w w' s p1 l1 p2 l2 [] Od Hb R H1 H2))
                    E)).
      reflexivity.
    + now constructor.
Qed.

(** ** What a pairing list looks like *)

Lemma Pairing_length h s ps :
  Pairing h s ps -> List.length s = (2 * List.length ps)%nat.
Proof.
  induction 1 as [|p1 l1 p2 l2 ps _ _ _ IH]; [reflexivity|].
  simpl. rewrite length_app in *. simpl. lia.
Qed.

Lemma Pairing_ids h s ps :
  Pairing h s ps -> Permutation (map s_id s) (pair_ids ps).
Proof.
  induction 1 as [|p1 l1 p2 l2 ps _ _ _ IH]; [constructor|].
  cbn [map pair_ids flat_map pair_of app]. constructor.
  rewrite map_app in *. cbn [map].
  apply Permutation_sym, Permutation_cons_app, Permutation_sym. exact IH.
Qed.

Lemma Pairing_avoids h s ps : Pairing h s ps -> AvoidsRematches h s ps.
Proof.
  induction 1 as [|p1 l1 p2 l2 ps H1 H2 _ IH]; constructor; [|exact IH].
  intros (Hre & c & Hin & Hc).
  destruct H2 as [-> | H2]; [|congruence].
  apply in_app_or in Hin. destruct Hin as [Hin | [<- | []]]; [|congruence].
  rewrite Forall_forall in H1. specialize (H1 c Hin). congruence.
Qed.

Lemma standings_odd_nonempty (s : list Row) :
  Nat.even (List.length s) = false -> s <> [].
Proof. intros E ->. discriminate. Qed.

(** Every list [swissPairings] returns is a [Pairing] of the standings or,
    when their number is odd, of the standings less the bye's recipient. *)
Lemma swissPairings_Ok_inv view w ps w' :
  reachable w = true ->
  swissPairings view w = (Ok ps, w') ->
  exists s0,
    paired_rows (standings_list view (store w)) s0
    /\ Pairing (match_history (store w')) s0 ps.
Proof.
  intros R E.
  destruct (Nat.even (List.length (standings_list view (store w)))) eqn:Ev.
  - destruct (swissPairings_even view w R Ev) as (ps' & E' & P).
    rewrite E' in E. injection E as <- <-.
    exists (standings_list view (store w)). split; [left; auto | exact P].
  - destruct (bye_choice_exists (match_history (store w)) _
                (standings_odd_nonempty _ Ev)) as (a & r & b & Hc).
    destruct (swissPairings_odd view w a r b R Ev Hc) as [H0 H1].
    destruct (a ++ b) as [|x l] eqn:Eab.
    + rewrite (H0 eq_refl) in E. discriminate.
    + destruct H1 as (ps' & E' & P); [discriminate|].
      rewrite E' in E. injection E as <- <-.
      exists (x :: l). split; [|exact P].
      right. split; [exact Ev|]. exists a, r, b. split; [apply Hc | auto].
Qed.

(** The fuel of the three loops is never used up. *)
Lemma swissPairings_terminates view w :
  fst (swissPairings view w) <> OutOfFuel.
Proof.
  destruct (reachable w) eqn:R.
  - destruct (Nat.even (List.length (standings_list view (store w)))) eqn:Ev.
    + destruct (swissPairings_even view w R Ev) as (ps & -> & _).
      discriminate.
    + destruct (bye_choice_exists (match_history (store w))
                  (standings_list view (store w))) as (a & r & b & Hc).
      { intros E. rewrite E in Ev. discriminate. }
      destruct (swissPairings_odd view w a r b R Ev Hc) as [H0 H1].
      destruct (a ++ b) as [|x l].
      * rewrite (H0 eq_refl). discriminate.
      * destruct H1 as (ps & -> & _); discriminate.
  - unfold swissPairings.
    rewrite (bind_Raise _ _ _ _ _ (open_cursor_unreachable w R)).
    discriminate.
Qed.

(** The first round of the test run: the last of the nine players gets the
    bye and the other eight are paired in the order of the standings. *)
Example first_round_of_nine :
  swissPairings player_standings_view nine_players
  = (Ok [(1, "Bill"%string, 2, "Heather"%string);
         (3, "Rob"%string, 4, "Alicia"%string);
         (5, "Jordan"%string, 6, "Jess"%string);
         (7, "Peony"%string, 8, "Jane"%string)],
     set_store (record_bye 9 (store nine_players)) nine_players).
Proof. vm_compute. reflexivity. Qed.

(** ** Number of pairs and byes *)

(** C1: on a reachable store, a standings list of even length N yields N/2
    pairs and leaves the stored state as it was (no bye is recorded); a
    standings list of odd length N has exactly one record [(id, -1)]
    appended to the match history, for a player of the standings, and yields
    (N-1)/2 pairs when N is at least 3.  For N = 1 the bye is recorded and
    the call then raises [IndexError] at [standings[0]] instead of returning
    the empty list. *)
Theorem swissPairings_pairs_and_byes view w :
  reachable w = true ->
  let s := standings_list view (store w) in
  let N := List.length s in
  let out := swissPairings view w in
  (Nat.even N = true ->
   exists ps, out = (Ok ps, w) /\ List.length ps = (N / 2)%nat)
  /\ (Nat.even N = false ->
      exists r,
        In r s
        /\ match_history (store (snd out))
           = match_history (store w) ++ [(s_id r, -1)]
        /\ (N <> 1%nat ->
            exists ps,
              fst out = Ok ps /\ List.length ps = ((N - 1) / 2)%nat)
        /\ (N = 1%nat -> fst out = Raise IndexError)).
Proof.
  intros R s N out. split; intros Ev.
  - destruct (swissPairings_even view w R Ev) as (ps & E & P).
    exists ps. split; [exact E|].
    apply Pairing_length in P. fold s in P. fold N in P. rewrite P.
    now rewrite Nat.mul_comm, Nat.div_mul.
  - destruct (bye_choice_exists (match_history (store w)) s
                (standings_odd_nonempty _ Ev)) as (a & r & b & Hc).
    destruct (swissPairings_odd view w a r b R Ev Hc) as [H0 H1].
    assert (HN : N = Datatypes.S (List.length (a ++ b))).
    { unfold N. destruct Hc as [-> _]. rewrite !length_app. simpl. lia. }
    exists r. split; [|split; [|split]].
    + destruct Hc as [E _]. rewrite E. apply in_or_app. right. now left.
    + destruct (a ++ b) as [|x l] eqn:Eab.
      * unfold out. now rewrite (H0 eq_refl).
      * destruct H1 as (ps & E & _); [discriminate|].
        unfold out. now rewrite E.
    + intros N1. destruct H1 as (ps & E & P).
      { intros E0. rewrite E0 in HN. simpl in HN. lia. }
      exists ps. unfold out. rewrite E. split; [reflexivity|].
      apply Pairing_length in P. rewrite HN, P.
      cbn [Nat.sub]. now rewrite Nat.sub_0_r, Nat.mul_comm, Nat.div_mul.
    + intros N1. unfold out. rewrite H0; [reflexivity|].
      rewrite N1 in HN. destruct (a ++ b); [reflexivity | discriminate].
Qed.

Lemma swissPairings_pairs_and_byes_one_player :
  reachable one_player = true
  /\ List.length (standings_list player_standings_view (store one_player))
     = 1%nat
  /\ fst (swissPairings player_standings_view one_player) = Raise IndexError
  /\ match_history
       (store (snd (swissPairings player_standings_view one_player)))
     = [(1, -1)].
Proof.
  split; [reflexivity|]. split; [reflexivity|].
  destruct (swissPairings_pairs_and_byes player_standings_view one_player
              eq_refl) as [_ H].
  destruct (H eq_refl) as (r & Hin & Hh & _ & H1).
  split; [exact (H1 eq_refl)|].
  rewrite Hh. destruct Hin as [<- | []]. reflexivity.
Defined.

(** C4: with no registered player [swissPairings] returns the empty list
    and changes nothing; with exactly one it records a bye for that player
    and then raises [IndexError] at [standings[0]], where the claim has it
    return the empty list. *)
Theorem swissPairings_zero_or_one_player view w :
  reachable w = true ->
  List.length (standings_list view (store w))
  = List.length (players (store w)) ->
  (sql_count_players (store w) = 0 -> swissPairings view w = (Ok [], w))
  /\ (sql_count_players (store w) = 1 ->
      exists r,
        standings_list view (store w) = [r]
        /\ swissPairings view w
           = (Raise IndexError, set_store (record_bye (s_id r) (store w)) w)).
Proof.
  intros R Hl. unfold sql_count_players, len. rewrite <- Hl. split; intros Hc.
  - assert (Ev : Nat.even (List.length (standings_list view (store w))) = true)
      by (destruct (standings_list view (store w)); [reflexivity | discriminate]).
    destruct (swissPairings_even view w R Ev) as (ps & E & P).
    destruct (standings_list view (store w)); [|discriminate].
    inversion P; subst. exact E.
  - destruct (standings_list view (store w)) as [|r [|r' l]] eqn:Es;
      try (simpl in Hc; lia).
    exists r. split; [reflexivity|].
    assert (Hb : bye_choice (match_history (store w))
                   (standings_list view (store w)) [] r []).
    { rewrite Es.
      destruct (bye_choice_exists (match_history (store w)) [r])
        as (a & r0 & b & Hb); [discriminate|].
      destruct Hb as [E Hb].
      destruct a as [|x a]; [|destruct a; discriminate].
      injection E as <- <-. split; [reflexivity | exact Hb]. }
    apply (swissPairings_odd view w [] r [] R); auto.
    now rewrite Es.
Qed.

Lemma swissPairings_zero_or_one_player_witness :
  swissPairings player_standings_view no_players = (Ok [], no_players)
  /\ exists r,
       swissPairings player_standings_view one_player
       = (Raise IndexError,
          set_store (record_bye (s_id r) (store one_player)) one_player).
Proof.
  split.
  - now apply (swissPairings_zero_or_one_player player_standings_view
                 no_players).
  - destruct (swissPairings_zero_or_one_player player_standings_view
                one_player eq_refl eq_refl) as [_ H].
    destruct (H eq_refl) as (r & _ & E). now exists r.
Defined.

(** ** Rematches *)

(** C2: the list [swissPairings] returns is formed from the working
    sequence (the standings, less the bye's recipient when their number is
    odd) by pairing the head [p1] with a candidate [p2] behind it, and
    [(p1, p2)] is never a rematch while some candidate present at that
    moment is no rematch of [p1].  The match history does not change once
    pairing has begun, so [rematchCheck] answers every selection from the
    history the call leaves behind. *)
Theorem swissPairings_avoids_rematches view w ps w' :
  reachable w = true ->
  swissPairings view w = (Ok ps, w') ->
  (forall p1 p2,
     rematchCheck p1 p2 w'
     = (Ok (isRematch (match_history (store w')) p1 p2), w'))
  /\ exists s0,
       paired_rows (standings_list view (store w)) s0
       /\ AvoidsRematches (match_history (store w')) s0 ps.
Proof.
  intros R E. split.
  - intros p1 p2. apply rematchCheck_reachable.
    destruct (Nat.even (List.length (standings_list view (store w)))) eqn:Ev.
    + destruct (swissPairings_even view w R Ev) as (ps' & E' & _).
      rewrite E' in E. now injection E as _ <-.
    + destruct (bye_choice_exists (match_history (store w)) _
                  (standings_odd_nonempty _ Ev)) as (a & r & b & Hc).
      destruct (swissPairings_odd view w a r b R Ev Hc) as [H0 H1].
      destruct (a ++ b) as [|x l].
      * rewrite (H0 eq_refl) in E. discriminate.
      * destruct H1 as (ps' & E' & _); [discriminate|].
        rewrite E' in E. now injection E as _ <-.
  - destruct (swissPairings_Ok_inv view w ps w' R E) as (s0 & Hs & P).
    exists s0. split; [exact Hs | now apply Pairing_avoids].
Qed.

Lemma swissPairings_avoids_rematches_witness :
  swissPairings player_standings_view four_players_all_met
  = (Ok [(1, "Bill"%string, 4, "Alicia"%string);
         (2, "Heather"%string, 3, "Rob"%string)], four_players_all_met)
  /\ exists s0,
       paired_rows
         (standings_list player_standings_view (store four_players_all_met))
         s0
       /\ AvoidsRematches (match_history (store four_players_all_met)) s0
            [(1, "Bill"%string, 4, "Alicia"%string);
             (2, "Heather"%string, 3, "Rob"%string)].
Proof.
  split; [reflexivity|].
  exact (proj2 (swissPairings_avoids_rematches player_standings_view
                  four_players_all_met _ _ eq_refl eq_refl)).
Defined.

(** ** Every player at most once *)

(** C6: the first and second ids of the tuples [swissPairings] returns are,
    up to order, the ids of the rows that were paired (the standings, less
    the bye's recipient when their number is odd), each row counted once; so
    when the ids of the standings are pairwise distinct (the id is the key
    of table [players]) no id occurs in more than one tuple, nor twice in
    one. *)
Theorem swissPairings_players_once view w ps w' :
  reachable w = true ->
  swissPairings view w = (Ok ps, w') ->
  (exists s0,
     paired_rows (standings_list view (store w)) s0
     /\ Permutation (map s_id s0) (pair_ids ps))
  /\ (NoDup (map s_id (standings_list view (store w))) ->
      NoDup (pair_ids ps)).
Proof.
  intros R E.
  destruct (swissPairings_Ok_inv view w ps w' R E) as (s0 & Hs & P).
  split; [exists s0; split; [exact Hs | now apply Pairing_ids in P]|].
  intros Hnd.
  apply (Permutation_NoDup (Pairing_ids _ _ _ P)).
  destruct Hs as [[_ ->] | [_ (a & r & b & Es & ->)]]; [exact Hnd|].
  rewrite Es in Hnd. rewrite map_app in *. cbn [map] in Hnd.
  now apply NoDup_remove_1 in Hnd.
Qed.

Lemma swissPairings_players_once_witness :
  swissPairings player_standings_view four_players_round_two
  = (Ok [(1, "Bill"%string, 3, "Rob"%string);
         (2, "Heather"%string, 4, "Alicia"%string)], four_players_round_two)
  /\ NoDup (pair_ids [(1, "Bill"%string, 3, "Rob"%string);
                      (2, "Heather"%string, 4, "Alicia"%string)]).
Proof.
  split; [reflexivity|].
  apply (swissPairings_players_once player_standings_view
           four_players_round_two _ four_players_round_two eq_refl eq_refl).
  vm_compute. repeat constructor; simpl; intuition discriminate.
Defined.

(** ** Byes *)

(** C3: with an odd number of standings rows of which at least one belongs
    to a player who had no bye, the one bye of the call goes to the last
    such row: every row behind it belongs to a player who already had a
    bye, and the state the call leaves is the one [reportBye] produces for
    that player (one win more and the record [(id, -1)]). *)
Theorem swissPairings_bye_to_lowest_without_bye view w :
  reachable w = true ->
  let s := standings_list view (store w) in
  let h := match_history (store w) in
  Nat.even (List.length s) = false ->
  Exists (fun x => hadBye h (s_id x) = false) s ->
  exists a r b,
    s = a ++ r :: b
    /\ hadBye h (s_id r) = false
    /\ Forall (fun x => hadBye h (s_id x) = true) b
    /\ store (snd (swissPairings view w)) = record_bye (s_id r) (store w).
Proof.
  intros R s h Od Hex.
  destruct (bye_cases h s (standings_odd_nonempty _ Od))
    as [(a & r & b & E & Hr & Hb) | (a & r & E & Hall)].
  - exists a, r, b. repeat split; auto.
    assert (Hc : bye_choice h s a r b) by (split; auto).
    destruct (swissPairings_odd view w a r b R Od Hc) as [H0 H1].
    destruct (a ++ b) as [|x l].
    + now rewrite (H0 eq_refl).
    + destruct H1 as (ps & E' & _); [discriminate|]. now rewrite E'.
  - exfalso. apply Exists_exists in Hex. destruct Hex as (x & Hin & Hx).
    rewrite Forall_forall in Hall. specialize (Hall x Hin). congruence.
Qed.

Lemma swissPairings_bye_to_lowest_without_bye_witness :
  standings_list player_standings_view (store three_players_round_three)
  = [mkRow 1 "Bill" 2 2; mkRow 2 "Heather" 1 2; mkRow 3 "Rob" 1 2]
  /\ exists a r b,
       standings_list player_standings_view (store three_players_round_three)
       = a ++ r :: b
       /\ hadBye (match_history (store three_players_round_three)) (s_id r)
          = false
       /\ Forall
            (fun x =>
               hadBye (match_history (store three_players_round_three))
                 (s_id x) = true) b
       /\ store (snd (swissPairings player_standings_view
                        three_players_round_three))
          = record_bye (s_id r) (store three_players_round_three).
Proof.
  split; [reflexivity|].
  apply (swissPairings_bye_to_lowest_without_bye player_standings_view
           three_players_round_three eq_refl eq_refl).
  apply Exists_cons_hd. reflexivity.
Defined.

(** C10: with an odd number of standings rows that all belong to players who
    already had a bye, the bye scan ends with [k = len(standings) + 1], that
    is at index [-1]; the bye block reports a further bye for the player of
    the last row and removes that row, and the rows before it are the ones
    that get paired. *)
Theorem swissPairings_second_bye_to_last view w :
  reachable w = true ->
  let s := standings_list view (store w) in
  let h := match_history (store w) in
  Nat.even (List.length s) = false ->
  Forall (fun x => hadBye h (s_id x) = true) s ->
  exists a r,
    s = a ++ [r]
    /\ bye_scan s w = (Ok (len s + 1), w)
    /\ assign_bye s w
       = (Ok a, set_store (record_bye (s_id r) (store w)) w)
    /\ store (snd (swissPairings view w)) = record_bye (s_id r) (store w)
    /\ (a <> [] ->
        exists ps,
          swissPairings view w
          = (Ok ps, set_store (record_bye (s_id r) (store w)) w)
          /\ Pairing (match_history (record_bye (s_id r) (store w))) a ps).
Proof.
  intros R s h Od Hall.
  pose proof (standings_odd_nonempty _ Od) as Hne.
  destruct (exists_last Hne) as (a & r & E).
  exists a, r. split; [exact E|].
  assert (Hc : bye_choice h s a r []).
  { split; [exact E|]. right. split; [reflexivity | exact Hall]. }
  destruct (swissPairings_odd view w a r [] R Od Hc) as [H0 H1].
  rewrite app_nil_r in *.
  split; [|split; [|split]].
  - rewrite bye_scan_reachable by assumption.
    rewrite leading_byes_all by (apply Forall_rev; exact Hall).
    now rewrite length_rev.
  - rewrite E. apply assign_bye_wraps; [exact R|]. rewrite <- E. exact Hall.
  - destruct a as [|x l].
    + now rewrite (H0 eq_refl).
    + destruct H1 as (ps & E' & _); [discriminate|]. now rewrite E'.
  - exact H1.
Qed.

Lemma swissPairings_second_bye_to_last_witness :
  swissPairings player_standings_view three_players_all_byes
  = (Ok [(1, "Bill"%string, 2, "Heather"%string)],
     set_store (record_bye 3 (store three_players_all_byes))
       three_players_all_byes)
  /\ exists a r,
       standings_list player_standings_view (store three_players_all_byes)
       = a ++ [r]
       /\ bye_scan
            (standings_list player_standings_view
               (store three_players_all_byes)) three_players_all_byes
          = (Ok 4, three_players_all_byes)
       /\ s_id r = 3.
Proof.
  split; [reflexivity|].
  destruct (swissPairings_second_bye_to_last player_standings_view
              three_players_all_byes eq_refl eq_refl)
    as (a & r & E & Hk & _ & Hs & _).
  - vm_compute. repeat constructor.
  - exists a, r. split; [exact E|]. split; [exact Hk|].
    assert (H : match_history
                  (store (snd (swissPairings player_standings_view
                                 three_players_all_byes)))
                = match_history
                    (record_bye (s_id r) (store three_players_all_byes)))
      by now rewrite Hs.
    vm_compute in H. injection H as H. symmetry. exact H.
Defined.

(** ** Ranking of the standings *)

Section OrderBy.

Variable ge : Player -> Player -> bool.
Hypothesis ge_total : forall p q, ge p q = false -> ge q p = true.
Hypothesis ge_trans :
  forall p q r, ge p q = true -> ge q r = true -> ge p r = true.

Lemma insert_ranked_Forall (P : Player -> Prop) p l :
  P p -> Forall P l -> Forall P (insert_ranked ge p l).
Proof.
  intros Hp Hl. induction Hl as [|q l Hq Hl IH]; simpl.
  - now constructor.
  - destruct (ge p q); repeat constructor; auto.
Qed.

Lemma insert_ranked_sorted p l :
  StronglySorted (fun a b => ge a b = true) l ->
  StronglySorted (fun a b => ge a b = true) (insert_ranked ge p l).
Proof.
  induction 1 as [|q l Hs IH Hq]; simpl.
  - repeat constructor.
  - destruct (ge p q) eqn:Hpq.
    + constructor; [now constructor|].
      constructor; [exact Hpq|].
      eapply Forall_impl; [|exact Hq]. intros x Hx. now apply (ge_trans p q x).
    + constructor; [exact IH|].
      apply insert_ranked_Forall; [now apply ge_total | exact Hq].
Qed.

Lemma order_by_sorted l :
  StronglySorted (fun a b => ge a b = true) (order_by ge l).
Proof.
  induction l as [|p l IH]; simpl; [constructor|].
  now apply insert_ranked_sorted.
Qed.

End OrderBy.

Lemma insert_ranked_length ge p l :
  List.length (insert_ranked ge p l) = Datatypes.S (List.length l).
Proof.
  induction l as [|q l IH]; simpl; [reflexivity|].
  destruct (ge p q); simpl; [reflexivity | now rewrite IH].
Qed.

Lemma order_by_length ge l : List.length (order_by ge l) = List.length l.
Proof.
  induction l as [|p l IH]; simpl; [reflexivity|].
  now rewrite insert_ranked_length, IH.
Qed.

Lemma StronglySorted_rows (R : Player -> Player -> Prop)
    (R' : Row -> Row -> Prop) l :
  (forall p q, R p q -> R' (row_of_player p) (row_of_player q)) ->
  StronglySorted R l -> StronglySorted R' (map row_of_player l).
Proof.
  intros HR. induction 1 as [|p l Hs IH Hp]; simpl; constructor; [exact IH|].
  apply Forall_map. eapply Forall_impl; [|exact Hp]. intros q. apply HR.
Qed.

Lemma wins_desc_sorted l :
  StronglySorted (fun a b => wins_desc a b = true) (order_by wins_desc l).
Proof.
  apply order_by_sorted; unfold wins_desc; intros.
  - apply Z.leb_le. apply Z.leb_gt in H. lia.
  - apply Z.leb_le. apply Z.leb_le in H, H0. lia.
Qed.

Lemma wins_omw_desc_spec d p q :
  wins_omw_desc d p q = true
  <-> p_wins q < p_wins p
      \/ (p_wins q = p_wins p /\ omw d (p_id q) <= omw d (p_id p)).
Proof.
  unfold wins_omw_desc.
  rewrite orb_true_iff, andb_true_iff, Z.ltb_lt, Z.eqb_eq, Z.leb_le.
  reflexivity.
Qed.

Lemma wins_omw_desc_sorted d l :
  StronglySorted (fun a b => wins_omw_desc d a b = true)
    (order_by (wins_omw_desc d) l).
Proof.
  apply order_by_sorted.
  - intros p q H. apply wins_omw_desc_spec.
    assert (N : ~ (p_wins q < p_wins p
                   \/ (p_wins q = p_wins p
                       /\ omw d (p_id q) <= omw d (p_id p)))).
    { intros C. apply wins_omw_desc_spec in C. congruence. }
    lia.
  - intros p q r H1 H2. apply wins_omw_desc_spec.
    apply wins_omw_desc_spec in H1, H2. lia.
Qed.

Lemma omw_no_matches d id : match_history d = [] -> omw d id = 0.
Proof. intros E. unfold omw. now rewrite E. Qed.

(** C5: on a reachable store [playerStandings], over the view as modelled,
    returns a list in which wins never increase from a row to any later row
    and, between rows of equal wins, opponents' match wins never increase;
    while the match history is empty the list is the result of the second
    query, ordered by wins alone. *)
Theorem playerStandings_ranked w :
  reachable w = true ->
  exists rows,
    playerStandings player_standings_view w = (Ok rows, w)
    /\ StronglySorted (ranked_above (store w)) rows
    /\ (match_history (store w) = [] ->
        rows = sql_players_by_wins (store w)
        /\ StronglySorted (fun r1 r2 => s_wins r2 <= s_wins r1) rows).
Proof.
  intros R. exists (standings_list player_standings_view (store w)).
  split; [now apply playerStandings_reachable|].
  unfold standings_list, player_standings_view, sql_players_by_wins.
  set (d := store w).
  assert (Wins : StronglySorted (fun r1 r2 => s_wins r2 <= s_wins r1)
                   (map row_of_player (order_by wins_desc (players d)))).
  { apply (StronglySorted_rows (fun a b => wins_desc a b = true));
      [|apply wins_desc_sorted].
    intros p q H. apply Z.leb_le in H. exact H. }
  destruct (match_history d) as [|m h] eqn:Eh.
  - change (len (@nil Row) =? 0) with true. cbv iota.
    split; [|auto].
    apply (StronglySorted_rows (fun a b => wins_desc a b = true));
      [|apply wins_desc_sorted].
    intros p q H. apply Z.leb_le in H. split; [exact H|]. intros _.
    cbn [row_of_player s_id]. now rewrite !omw_no_matches.
  - split; [|discriminate].
    destruct (players d) as [|p l] eqn:Ep; [constructor|].
    replace (len (map row_of_player (order_by (wins_omw_desc d) (p :: l)))
             =? 0) with false.
    2:{ symmetry. apply Z.eqb_neq. unfold len.
        rewrite length_map, order_by_length. simpl List.length. lia. }
    apply (StronglySorted_rows (fun a b => wins_omw_desc d a b = true));
      [|apply wins_omw_desc_sorted].
    intros a b H. apply wins_omw_desc_spec in H.
    split; cbn [row_of_player s_id s_wins]; lia.
Qed.

Lemma playerStandings_ranked_witness :
  exists rows,
    playerStandings player_standings_view four_players_round_two
    = (Ok rows, four_players_round_two)
    /\ map s_id rows = [1; 3; 2; 4]
    /\ StronglySorted (ranked_above (store four_players_round_two)) rows.
Proof.
  destruct (playerStandings_ranked four_players_round_two eq_refl)
    as (rows & E & S & _).
  exists rows. split; [exact E|]. split; [|exact S].
  vm_compute in E. injection E as <-. reflexivity.
Defined.

(** ** The counters of a player *)

Lemma consistent_add_win id d : consistent d -> consistent (sql_add_win id d).
Proof.
  unfold consistent, sql_add_win. cbn [players]. intros H.
  apply Forall_map. eapply Forall_impl; [|exact H]. intros p Hp.
  destruct (p_id p =? id); cbn in *; lia.
Qed.

Lemma consistent_add_loss id d : consistent d -> consistent (sql_add_loss id d).
Proof.
  unfold consistent, sql_add_loss. cbn [players]. intros H.
  apply Forall_map. eapply Forall_impl; [|exact H]. intros p Hp.
  destruct (p_id p =? id); cbn in *; lia.
Qed.

Lemma consistent_insert_match a b d :
  consistent d -> consistent (sql_insert_match a b d).
Proof. intros H. exact H. Qed.

Lemma consistent_reset_counters d : consistent (sql_reset_counters d).
Proof.
  unfold consistent, sql_reset_counters. cbn [players].
  apply Forall_map, Forall_forall. intros p _. reflexivity.
Qed.

Lemma consistent_insert_player name d :
  consistent d -> consistent (sql_insert_player name d).
Proof.
  unfold consistent, sql_insert_player. cbn [players]. intros H.
  apply Forall_app. split; [exact H|]. repeat constructor.
Qed.

(** ** Unknown players *)

Lemma find_id_map (f : Player -> Player) id l :
  (forall p, p_id (f p) = p_id p) ->
  find (fun p => p_id p =? id) (map f l)
  = option_map f (find (fun p => p_id p =? id) l).
Proof.
  intros Hf. induction l as [|p l IH]; simpl; [reflexivity|].
  rewrite Hf. destruct (p_id p =? id); [reflexivity | exact IH].
Qed.

Lemma select_name_after_updates id a b d :
  sql_select_name id (sql_insert_match a b (sql_add_loss b (sql_add_win a d)))
  = sql_select_name id d.
Proof.
  unfold sql_select_name, sql_insert_match, sql_add_loss, sql_add_win.
  cbn [players]. rewrite !find_id_map.
  - destruct (find _ (players d)) as [p|]; [|reflexivity]. cbn [option_map].
    destruct (p_id p =? a); cbn; destruct (_ =? b); reflexivity.
  - intros p. now destruct (p_id p =? a).
  - intros p. now destruct (p_id p =? b).
Qed.

Lemma select_name_unknown id d :
  player_exists id d = false -> sql_select_name id d = None.
Proof.
  unfold player_exists, sql_select_name. intros H.
  destruct (find _ (players d)) as [p|] eqn:E; [|reflexivity].
  apply find_some in E. destruct E as [Hin Hp].
  assert (X : existsb (fun p => p_id p =? id) (players d) = true)
    by (apply existsb_exists; eauto).
  congruence.
Qed.

Lemma select_name_known id d :
  player_exists id d = true -> exists n, sql_select_name id d = Some n.
Proof.
  unfold player_exists, sql_select_name. intros H.
  apply existsb_exists in H. destruct H as (p & Hin & Hp).
  destruct (find _ (players d)) as [q|] eqn:E; [eauto|].
  apply (find_none _ _ E) in Hin. congruence.
Qed.

(** ** The counters are kept consistent *)

(** C7: if [matches_played = wins + losses] holds for every player in the
    stored state, it holds for every player in the state that [reportMatch],
    [reportBye], [deleteMatches] or [registerPlayer] leaves behind, whatever
    their arguments and whether they return or raise. *)
Theorem counters_consistent_preserved w :
  consistent (store w) ->
  (forall winner loser,
     consistent (store (after (reportMatch winner loser) w)))
  /\ (forall winner, consistent (store (after (reportBye winner) w)))
  /\ consistent (store (after deleteMatches w))
  /\ (forall name, consistent (store (after (registerPlayer name) w))).
Proof.
  intros H. unfold after.
  split; [|split; [|split]]; intros;
    destruct (open_cursor_cases w) as [E | E].
  - unfold reportMatch. rewrite (bind_Ok _ _ _ _ _ E). unfold bind.
    rewrite !select_name_after_updates.
    destruct (sql_select_name winner (store w)); [|exact H].
    destruct (sql_select_name loser (store w)); [|exact H].
    cbn. now apply consistent_insert_match, consistent_add_loss,
           consistent_add_win.
  - unfold reportMatch. rewrite (bind_Raise _ _ _ _ _ E). exact H.
  - unfold reportBye. rewrite (bind_Ok _ _ _ _ _ E). cbn.
    now apply consistent_insert_match, consistent_add_win.
  - unfold reportBye. rewrite (bind_Raise _ _ _ _ _ E). exact H.
  - unfold deleteMatches. rewrite (bind_Ok _ _ _ _ _ E). cbn.
    apply consistent_reset_counters.
  - unfold deleteMatches. rewrite (bind_Raise _ _ _ _ _ E). exact H.
  - unfold registerPlayer. rewrite (bind_Ok _ _ _ _ _ E). cbn.
    now apply consistent_insert_player.
  - unfold registerPlayer. rewrite (bind_Raise _ _ _ _ _ E). exact H.
Qed.

Lemma counters_consistent_preserved_witness :
  consistent (store (after (reportMatch 1 2) four_players_round_two))
  /\ consistent (store (after (reportBye 4) four_players_round_two))
  /\ consistent (store (after deleteMatches four_players_round_two))
  /\ consistent
       (store (after (registerPlayer "Jordan") four_players_round_two)).
Proof.
  assert (H : consistent (store four_players_round_two)).
  { vm_compute. repeat constructor. }
  destruct (counters_consistent_preserved four_players_round_two H)
    as (H1 & H2 & H3 & H4).
  split; [apply H1|]. split; [apply H2|]. split; [exact H3 | apply H4].
Defined.

(** C8, as the claim states it, fails: [reportMatch] has no check of its
    own for the two ids and no error of its own for an unknown one.  With
    the unknown loser 7 it raises the [TypeError] of [fetchone()[0]], and
    the same [TypeError] is what it raises for two registered players when
    the store cannot be reached: no exception it raises tells the caller
    that a player is unknown. *)
Lemma reportMatch_raises_no_error_of_unknown_player :
  player_exists 7 (store four_players) = false
  /\ fst (reportMatch 1 7 four_players) = Raise TypeError
  /\ player_exists 1 (store unreachable_store) = true
  /\ player_exists 2 (store unreachable_store) = true
  /\ fst (reportMatch 1 2 unreachable_store) = Raise TypeError
  /\ ~ (exists e,
         signals_unknown_player e
         /\ fst (reportMatch 1 7 four_players) = Raise e).
Proof.
  repeat split; try reflexivity.
  intros (e & He & E).
  assert (Et : e = TypeError).
  { change (fst (reportMatch 1 7 four_players)) with (@Raise unit TypeError)
      in E.
    now injection E. }
  subst e.
  destruct (He unreachable_store 1 2 eq_refl) as [H | H]; discriminate H.
Qed.

(** C8, amended: when the winner's or the loser's id has no row in table
    [players], [reportMatch] fails with the [TypeError] that [fetchone()[0]]
    raises where it reads the player's name, before it commits: the stored
    state is the one it started from, with no counter changed and no record
    added. *)
Theorem reportMatch_unknown_player w winner loser :
  player_exists winner (store w) = false
  \/ player_exists loser (store w) = false ->
  fst (reportMatch winner loser w) = Raise TypeError
  /\ store (after (reportMatch winner loser) w) = store w.
Proof.
  intros H. unfold after, reportMatch.
  destruct (open_cursor_cases w) as [E | E].
  - rewrite (bind_Ok _ _ _ _ _ E). unfold bind.
    rewrite !select_name_after_updates.
    destruct H as [H | H].
    + rewrite (select_name_unknown _ _ H). auto.
    + rewrite (select_name_unknown _ _ H).
      destruct (sql_select_name winner (store w)); auto.
  - rewrite (bind_Raise _ _ _ _ _ E). auto.
Qed.

Lemma reportMatch_unknown_player_witness :
  reportMatch 1 7 four_players = (Raise TypeError, four_players).
Proof.
  destruct (reportMatch_unknown_player four_players 1 7) as [H1 H2].
  - right. reflexivity.
  - reflexivity.
Defined.

(** Between two registered players the match is recorded. *)
Lemma reportMatch_known_players w winner loser :
  reachable w = true ->
  player_exists winner (store w) = true ->
  player_exists loser (store w) = true ->
  reportMatch winner loser w
  = (Ok tt,
     set_store
       (sql_insert_match winner loser
          (sql_add_loss loser (sql_add_win winner (store w)))) w).
Proof.
  intros R Hw Hl. unfold reportMatch.
  rewrite (bind_Ok _ _ _ _ _ (open_cursor_reachable w R)). unfold bind.
  rewrite !select_name_after_updates.
  destruct (select_name_known _ _ Hw) as [n1 ->].
  destruct (select_name_known _ _ Hl) as [n2 ->]. reflexivity.
Qed.

(** ** An unreachable store *)

(** C9, as the claim states it, fails: with the server unreachable
    [psycopg2.connect] raises its [OperationalError] inside [connect], whose
    bare [except] catches it; [connect] returns [None] and the caller, here
    [countPlayers], gets a [TypeError] instead of the store's failure. *)
Lemma countPlayers_store_failure_swallowed :
  reachable unreachable_store = false
  /\ fst (psycopg2_connect "dbname=tournament" unreachable_store)
     = Raise OperationalError
  /\ fst (connect "tournament" unreachable_store) = Ok None
  /\ fst (countPlayers unreachable_store) <> Raise OperationalError.
Proof.
  repeat split; discriminate.
Qed.

(** C9, amended: with the server unreachable, [connect] prints its message
    and returns [None], and every operation raises a [TypeError] at
    [db, c = connect()], before it runs any statement: it returns no data
    and the stored state is untouched. *)
Theorem unreachable_store_raises_TypeError view w :
  reachable w = false ->
  store (connect_failed w) = store w
  /\ connect "tournament" w = (Ok None, connect_failed w)
  /\ deleteMatches w = (Raise TypeError, connect_failed w)
  /\ deletePlayers w = (Raise TypeError, connect_failed w)
  /\ countPlayers w = (Raise TypeError, connect_failed w)
  /\ (forall name, registerPlayer name w = (Raise TypeError, connect_failed w))
  /\ playerStandings view w = (Raise TypeError, connect_failed w)
  /\ (forall winner loser,
        reportMatch winner loser w = (Raise TypeError, connect_failed w))
  /\ (forall winner, reportBye winner w = (Raise TypeError, connect_failed w))
  /\ swissPairings view w = (Raise TypeError, connect_failed w)
  /\ (forall p1, checkBye p1 w = (Raise TypeError, connect_failed w))
  /\ (forall p1 p2, rematchCheck p1 p2 w = (Raise TypeError, connect_failed w)).
Proof.
  intros R. pose proof (open_cursor_unreachable w R) as E.
  split; [reflexivity|]. split.
  { unfold connect, try_except, psycopg2_connect, bind. now rewrite R. }
  repeat split; intros; apply bind_Raise; exact E.
Qed.

Lemma unreachable_store_raises_TypeError_witness :
  swissPairings player_standings_view unreachable_store
  = (Raise TypeError, connect_failed unreachable_store)
  /\ countPlayers unreachable_store
     = (Raise TypeError, connect_failed unreachable_store).
Proof.
  destruct (unreachable_store_raises_TypeError player_standings_view
              unreachable_store eq_refl)
    as (_ & _ & _ & _ & Hc & _ & _ & _ & _ & Hs & _).
  split; [exact Hs | exact Hc].
Defined.

(** ** Registering, counting and deleting *)

Lemma registerPlayer_reachable name w :
  reachable w = true ->
  registerPlayer name w
  = (Ok tt, set_store (sql_insert_player name (store w)) w).
Proof.
  intros R. unfold registerPlayer.
  now rewrite (bind_Ok _ _ _ _ _ (open_cursor_reachable w R)).
Qed.

Lemma deletePlayers_reachable w :
  reachable w = true ->
  deletePlayers w = (Ok tt, set_store (sql_delete_players (store w)) w).
Proof.
  intros R. unfold deletePlayers.
  now rewrite (bind_Ok _ _ _ _ _ (open_cursor_reachable w R)).
Qed.

Lemma deleteMatches_reachable w :
  reachable w = true ->
  deleteMatches w
  = (Ok tt,
     set_store (sql_delete_match_history (sql_reset_counters (store w))) w).
Proof.
  intros R. unfold deleteMatches.
  now rewrite (bind_Ok _ _ _ _ _ (open_cursor_reachable w R)).
Qed.

Lemma countPlayers_reachable w :
  reachable w = true ->
  countPlayers w = (Ok (len (players (store w))), w).
Proof.
  intros R. unfold countPlayers.
  now rewrite (bind_Ok _ _ _ _ _ (open_cursor_reachable w R)).
Qed.

Lemma reportMatch_unknown_reachable w winner loser :
  reachable w = true ->
  player_exists winner (store w) = false
  \/ player_exists loser (store w) = false ->
  reportMatch winner loser w = (Raise TypeError, w).
Proof.
  intros R H. unfold reportMatch.
  rewrite (bind_Ok _ _ _ _ _ (open_cursor_reachable w R)). unfold bind.
  rewrite !select_name_after_updates.
  destruct H as [H | H]; rewrite (select_name_unknown _ _ H);
    [|destruct (sql_select_name winner (store w))]; reflexivity.
Qed.

(** On a reachable store [reportMatch] either records the match or raises
    and leaves the world as it was. *)
Lemma reportMatch_cases w winner loser :
  reachable w = true ->
  (player_exists winner (store w) = true
   /\ player_exists loser (store w) = true
   /\ reportMatch winner loser w
      = (Ok tt,
         set_store
           (sql_insert_match winner loser
              (sql_add_loss loser (sql_add_win winner (store w)))) w))
  \/ ((player_exists winner (store w) = false
       \/ player_exists loser (store w) = false)
      /\ reportMatch winner loser w = (Raise TypeError, w)).
Proof.
  intros R.
  destruct (player_exists winner (store w)) eqn:Hw;
    destruct (player_exists loser (store w)) eqn:Hl.
  - left. repeat split. now apply reportMatch_known_players.
  - right. split; [auto|]. apply reportMatch_unknown_reachable; auto.
  - right. split; [auto|]. apply reportMatch_unknown_reachable; auto.
  - right. split; [auto|]. apply reportMatch_unknown_reachable; auto.
Qed.

(** The number of rows of [players] after an operation, reachable or not. *)
Lemma players_after_reportMatch winner loser w :
  List.length (players (store (after (reportMatch winner loser) w)))
  = List.length (players (store w)).
Proof.
  unfold after, reportMatch.
  destruct (open_cursor_cases w) as [E | E].
  - rewrite (bind_Ok _ _ _ _ _ E). unfold bind.
    rewrite !select_name_after_updates.
    destruct (sql_select_name winner (store w)); [|reflexivity].
    destruct (sql_select_name loser (store w)); [|reflexivity].
    cbn. now rewrite !length_map.
  - now rewrite (bind_Raise _ _ _ _ _ E).
Qed.

(** X1: [countPlayers] follows the registrations: on a reachable store it
    returns 0 after [deletePlayers], one more after each [registerPlayer],
    and the same number after [reportMatch], [reportBye] and
    [deleteMatches], whatever their arguments. *)
Theorem countPlayers_tracks_registrations w n :
  reachable w = true ->
  countPlayers w = (Ok n, w) ->
  fst (countPlayers (after deletePlayers w)) = Ok 0
  /\ (forall name,
        fst (countPlayers (after (registerPlayer name) w)) = Ok (n + 1))
  /\ (forall winner loser,
        fst (countPlayers (after (reportMatch winner loser) w)) = Ok n)
  /\ (forall winner, fst (countPlayers (after (reportBye winner) w)) = Ok n)
  /\ fst (countPlayers (after deleteMatches w)) = Ok n.
Proof.
  intros R E. rewrite countPlayers_reachable in E by assumption.
  injection E as <-.
  split; [|split; [|split; [|split]]]; intros; unfold after.
  - rewrite deletePlayers_reachable by assumption.
    now rewrite countPlayers_reachable.
  - rewrite registerPlayer_reachable by assumption.
    rewrite countPlayers_reachable by assumption. cbn [fst snd].
    f_equal. cbn. rewrite len_app. reflexivity.
  - pose proof (players_after_reportMatch winner loser w) as L.
    unfold after in L. rewrite countPlayers_reachable.
    + cbn [fst]. unfold len. now rewrite L.
    + destruct (reportMatch_cases w winner loser R) as [(_ & _ & ->) | [_ ->]];
        exact R.
  - rewrite reportBye_reachable by assumption.
    rewrite countPlayers_reachable by assumption. cbn [fst snd].
    f_equal. unfold len. cbn. now rewrite length_map.
  - rewrite deleteMatches_reachable by assumption.
    rewrite countPlayers_reachable by assumption. cbn [fst snd].
    f_equal. unfold len. cbn. now rewrite length_map.
Qed.

Lemma countPlayers_tracks_registrations_witness :
  fst (countPlayers (after deletePlayers three_players)) = Ok 0
  /\ fst (countPlayers (after (registerPlayer "Alicia") three_players)) = Ok 4
  /\ fst (countPlayers (after (reportMatch 1 2) three_players)) = Ok 3.
Proof.
  destruct (countPlayers_tracks_registrations three_players 3 eq_refl eq_refl)
    as (H0 & H1 & H2 & _).
  split; [exact H0|]. split; [exact (H1 _) | exact (H2 1 2)].
Defined.

(** ** Resetting the tournament *)

(** X2: on a reachable store [deleteMatches] returns normally and leaves a
    tournament that has not begun: the same players (ids and names, in the
    same order) with all three counters at zero, no player with a bye and no
    two players that have met. *)
Theorem deleteMatches_resets w :
  reachable w = true ->
  fst (deleteMatches w) = Ok tt
  /\ map p_id (players (store (after deleteMatches w)))
     = map p_id (players (store w))
  /\ map p_name (players (store (after deleteMatches w)))
     = map p_name (players (store w))
  /\ Forall (fun p => p_wins p = 0 /\ p_losses p = 0
                      /\ p_matches_played p = 0)
       (players (store (after deleteMatches w)))
  /\ (forall p, fst (checkBye p (after deleteMatches w)) = Ok false)
  /\ (forall p1 p2,
        fst (rematchCheck p1 p2 (after deleteMatches w)) = Ok false).
Proof.
  intros R. unfold after. rewrite deleteMatches_reachable by assumption.
  cbn [fst snd store set_store sql_delete_match_history sql_reset_counters
       players].
  split; [reflexivity|].
  split; [now rewrite map_map|]. split; [now rewrite map_map|].
  split; [apply Forall_map, Forall_forall; intros p _; now cbn|].
  split; intros.
  - now rewrite checkBye_reachable.
  - now rewrite rematchCheck_reachable.
Qed.

Lemma deleteMatches_resets_witness :
  fst (deleteMatches three_players_round_three) = Ok tt
  /\ store (after deleteMatches three_players_round_three)
     = store three_players
  /\ fst (checkBye 3 (after deleteMatches three_players_round_three))
     = Ok false.
Proof.
  destruct (deleteMatches_resets three_players_round_three eq_refl)
    as (H0 & _ & _ & _ & H4 & _).
  split; [exact H0|]. split; [reflexivity | exact (H4 3)].
Defined.

(** ** Matches and rematches *)

Lemma isRematch_sym h p1 p2 : isRematch h p1 p2 = isRematch h p2 p1.
Proof.
  unfold isRematch. induction h as [|m h IH]; [reflexivity|].
  cbn [existsb]. rewrite IH. f_equal. apply orb_comm.
Qed.

Lemma isRematch_app h1 h2 p1 p2 :
  isRematch (h1 ++ h2) p1 p2 = isRematch h1 p1 p2 || isRematch h2 p1 p2.
Proof. unfold isRematch. apply existsb_app. Qed.

Lemma hadBye_app h1 h2 p : hadBye (h1 ++ h2) p = hadBye h1 p || hadBye h2 p.
Proof. unfold hadBye. apply existsb_app. Qed.

(** X4: [rematchCheck] does not depend on the order of its two players:
    [rematchCheck(p1, p2)] and [rematchCheck(p2, p1)] give the same answer,
    or fail alike, in every state. *)
Theorem rematchCheck_symmetric w p1 p2 :
  rematchCheck p1 p2 w = rematchCheck p2 p1 w.
Proof.
  destruct (reachable w) eqn:R.
  - rewrite !rematchCheck_reachable by assumption.
    now rewrite isRematch_sym.
  - unfold rematchCheck.
    now rewrite !(bind_Raise _ _ _ _ _ (open_cursor_unreachable w R)).
Qed.

(** X3: on a reachable store a match reported between two registered
    players is recorded, and from then on [rematchCheck] answers [True] for
    these two players in either order; for every other pair of ids its
    answer is the one it gave before. *)
Theorem reportMatch_then_rematchCheck w winner loser :
  reachable w = true ->
  player_exists winner (store w) = true ->
  player_exists loser (store w) = true ->
  fst (reportMatch winner loser w) = Ok tt
  /\ forall p1 p2,
       fst (rematchCheck p1 p2 (after (reportMatch winner loser) w))
       = Ok (isRematch (match_history (store w)) p1 p2
             || ((p1 =? winner) && (p2 =? loser))
             || ((p1 =? loser) && (p2 =? winner))).
Proof.
  intros R Hw Hl. unfold after.
  rewrite (reportMatch_known_players w winner loser R Hw Hl).
  split; [reflexivity|]. intros p1 p2.
  rewrite rematchCheck_reachable by assumption.
  cbn [fst snd store set_store sql_insert_match match_history].
  rewrite isRematch_app. cbn [isRematch existsb fst snd].
  rewrite (Z.eqb_sym winner p1), (Z.eqb_sym loser p2),
    (Z.eqb_sym winner p2), (Z.eqb_sym loser p1).
  f_equal.
  destruct (isRematch _ p1 p2), (p1 =? winner), (p2 =? loser),
    (p2 =? winner), (p1 =? loser); reflexivity.
Qed.

Lemma reportMatch_then_rematchCheck_witness :
  fst (reportMatch 1 2 four_players) = Ok tt
  /\ fst (rematchCheck 2 1 (after (reportMatch 1 2) four_players)) = Ok true
  /\ fst (rematchCheck 1 3 (after (reportMatch 1 2) four_players)) = Ok false.
Proof.
  destruct (reportMatch_then_rematchCheck four_players 1 2 eq_refl eq_refl
              eq_refl) as [H0 H].
  split; [exact H0|]. split; [exact (H 2 1) | exact (H 1 3)].
Defined.

(** X5: on a reachable store [reportBye] returns normally, and afterwards
    [checkBye] answers [True] for the player and as before for every other
    id; no bye makes two players a rematch: for ids other than [-1] the
    answer of [rematchCheck] is unchanged. *)
Theorem reportBye_then_checkBye w winner :
  reachable w = true ->
  fst (reportBye winner w) = Ok tt
  /\ fst (checkBye winner (after (reportBye winner) w)) = Ok true
  /\ (forall p, p <> winner ->
        fst (checkBye p (after (reportBye winner) w))
        = Ok (hadBye (match_history (store w)) p))
  /\ (forall p1 p2, p1 <> -1 -> p2 <> -1 ->
        fst (rematchCheck p1 p2 (after (reportBye winner) w))
        = Ok (isRematch (match_history (store w)) p1 p2)).
Proof.
  intros R. unfold after. rewrite reportBye_reachable by assumption.
  cbn [fst snd]. split; [reflexivity|].
  split; [|split]; intros.
  - rewrite checkBye_reachable by assumption. cbn [fst store set_store].
    unfold record_bye. cbn [sql_insert_match match_history].
    rewrite hadBye_app. cbn [hadBye existsb fst snd].
    now rewrite Z.eqb_refl, orb_true_r.
  - rewrite checkBye_reachable by assumption. cbn [fst store set_store].
    unfold record_bye. cbn [sql_insert_match match_history].
    rewrite hadBye_app. cbn [hadBye existsb fst snd].
    replace (winner =? p) with false by (symmetry; apply Z.eqb_neq; auto).
    now rewrite orb_false_r.
  - rewrite rematchCheck_reachable by assumption. cbn [fst store set_store].
    unfold record_bye. cbn [sql_insert_match match_history].
    rewrite isRematch_app. cbn [isRematch existsb fst snd].
    replace (-1 =? p2) with false by (symmetry; apply Z.eqb_neq; auto).
    replace (-1 =? p1) with false by (symmetry; apply Z.eqb_neq; auto).
    now rewrite !andb_false_r, !orb_false_r.
Qed.

Lemma reportBye_then_checkBye_witness :
  fst (checkBye 3 three_players) = Ok false
  /\ fst (checkBye 3 (after (reportBye 3) three_players)) = Ok true
  /\ fst (checkBye 2 (after (reportBye 3) three_players)) = Ok false.
Proof.
  destruct (reportBye_then_checkBye three_players 3 eq_refl)
    as (_ & H1 & H2 & _).
  split; [reflexivity|]. split; [exact H1|].
  exact (H2 2 ltac:(discriminate)).
Defined.

(** ** The match history only grows *)

(** The world [swissPairings] leaves: the one it found, the one with the
    failed connection's message, or the one with the bye of one row. *)
Lemma swissPairings_after view w :
  after (swissPairings view) w = w
  \/ after (swissPairings view) w = connect_failed w
  \/ exists r,
       In r (standings_list view (store w))
       /\ after (swissPairings view) w
          = set_store (record_bye (s_id r) (store w)) w.
Proof.
  unfold after. destruct (reachable w) eqn:R.
  - destruct (Nat.even (List.length (standings_list view (store w)))) eqn:Ev.
    + destruct (swissPairings_even view w R Ev) as (ps & -> & _). now left.
    + destruct (bye_choice_exists (match_history (store w)) _
                  (standings_odd_nonempty _ Ev)) as (a & r & b & Hc).
      destruct (swissPairings_odd view w a r b R Ev Hc) as [H0 H1].
      right. right. exists r. split.
      * destruct Hc as [-> _]. apply in_or_app. right. now left.
      * destruct (a ++ b) as [|x l].
        -- now rewrite (H0 eq_refl).
        -- destruct H1 as (ps & -> & _); [discriminate | reflexivity].
  - right. left. unfold swissPairings.
    now rewrite (bind_Raise _ _ _ _ _ (open_cursor_unreachable w R)).
Qed.

Lemma keeps_history_same {A} (m : Op A) w :
  match_history (store (after m w)) = match_history (store w) ->
  keeps_history m w.
Proof. intros E. exists []. now rewrite app_nil_r. Qed.

(** X6: every operation but [deleteMatches] leaves the records of the match
    history in place and at most appends to them; so a player who had a
    bye, and two players who have met, are still reported as such by the
    history after any of these operations. *)
Theorem history_is_append_only view w :
  (forall winner loser, keeps_history (reportMatch winner loser) w)
  /\ (forall winner, keeps_history (reportBye winner) w)
  /\ (forall name, keeps_history (registerPlayer name) w)
  /\ keeps_history deletePlayers w
  /\ keeps_history countPlayers w
  /\ keeps_history (playerStandings view) w
  /\ keeps_history (swissPairings view) w
  /\ (forall A (m : Op A),
        keeps_history m w ->
        (forall p, hadBye (match_history (store w)) p = true ->
                   hadBye (match_history (store (after m w))) p = true)
        /\ (forall p1 p2,
              isRematch (match_history (store w)) p1 p2 = true ->
              isRematch (match_history (store (after m w))) p1 p2 = true)).
Proof.
  repeat split; intros.
  - unfold keeps_history, after.
    destruct (reachable w) eqn:R.
    + destruct (reportMatch_cases w winner loser R) as [(_ & _ & ->) | [_ ->]].
      * now exists [(winner, loser)].
      * exists []. now rewrite app_nil_r.
    + unfold reportMatch.
      rewrite (bind_Raise _ _ _ _ _ (open_cursor_unreachable w R)).
      exists []. now rewrite app_nil_r.
  - unfold keeps_history, after. destruct (reachable w) eqn:R.
    + rewrite reportBye_reachable by assumption. now exists [(winner, -1)].
    + unfold reportBye.
      rewrite (bind_Raise _ _ _ _ _ (open_cursor_unreachable w R)).
      exists []. now rewrite app_nil_r.
  - apply keeps_history_same. unfold after. destruct (reachable w) eqn:R.
    + now rewrite registerPlayer_reachable.
    + unfold registerPlayer.
      now rewrite (bind_Raise _ _ _ _ _ (open_cursor_unreachable w R)).
  - apply keeps_history_same. unfold after. destruct (reachable w) eqn:R.
    + now rewrite deletePlayers_reachable.
    + unfold deletePlayers.
      now rewrite (bind_Raise _ _ _ _ _ (open_cursor_unreachable w R)).
  - apply keeps_history_same. unfold after. destruct (reachable w) eqn:R.
    + now rewrite countPlayers_reachable.
    + unfold countPlayers.
      now rewrite (bind_Raise _ _ _ _ _ (open_cursor_unreachable w R)).
  - apply keeps_history_same. unfold after. destruct (reachable w) eqn:R.
    + now rewrite playerStandings_reachable.
    + unfold playerStandings.
      now rewrite (bind_Raise _ _ _ _ _ (open_cursor_unreachable w R)).
  - destruct (swissPairings_after view w) as [E | [E | (r & _ & E)]].
    + apply keeps_history_same. now rewrite E.
    + apply keeps_history_same. now rewrite E.
    + exists [(s_id r, -1)]. now rewrite E.
  - destruct H as [added ->]. rewrite hadBye_app, H0. reflexivity.
  - destruct H as [added ->]. rewrite isRematch_app, H0. reflexivity.
Qed.

(** ** Wins, losses and records *)

Lemma player_exists_In id d :
  player_exists id d = true <-> In id (map p_id (players d)).
Proof.
  unfold player_exists. rewrite existsb_exists, in_map_iff. split.
  - intros (p & Hin & Hp). apply Z.eqb_eq in Hp. eauto.
  - intros (p & Hp & Hin). exists p. split; [exact Hin | now apply Z.eqb_eq].
Qed.





Lemma ids_add_win id d :
  map p_id (players (sql_add_win id d)) = map p_id (players d).
Proof.
  unfold sql_add_win. cbn [players]. rewrite map_map. apply map_ext.
  intros p. now destruct (p_id p =? id).
Qed.






(** ** Pairing neighbours *)

Lemma pairing_loop_neighbours w :
  reachable w = true ->
  forall (n : nat) (s : list Row) (acc : list Pair) (fuel : nat),
    List.length s = (2 * n)%nat -> (n < fuel)%nat ->
    neighbours_unmet (match_history (store w)) s ->
    while_ fuel (fun st => ret (0 <? len (fst st))) pairing_round (s, acc) w
    = (Ok ([], acc ++ adjacent_pairs s), w).
Proof.
  intros R. induction n as [|n IH]; intros s acc fuel Hl Hf Hu.
  - destruct s; [|discriminate]. destruct fuel as [|fuel]; [lia|].
    cbn [adjacent_pairs]. rewrite app_nil_r. now apply while_false.
  - destruct s as [|r1 [|r2 rest]]; try (simpl in Hl; lia).
    destruct fuel as [|fuel]; [lia|].
    destruct Hu as [Hu1 Hu2].
    erewrite while_true.
    + rewrite (IH rest (acc ++ [pair_of r1 r2]) fuel).
      * cbn [adjacent_pairs]. now rewrite <- app_assoc.
      * simpl in Hl. lia.
      * lia.
      * exact Hu2.
    + reflexivity.
    + apply (pairing_round_even w r1 [] r2 rest acc R); auto.
      cbn [app]. rewrite Hl. apply Nat.even_spec.
      now exists (Datatypes.S n).
Qed.

(** X8: as the docstring of [swissPairings] has it, with an even number of
    players each one is paired with a neighbour in the standings: when no
    first-and-second, third-and-fourth, ... rows have met, the call returns
    exactly these pairs, in this order, and changes nothing. *)
Theorem swissPairings_pairs_neighbours view w :
  reachable w = true ->
  Nat.even (List.length (standings_list view (store w))) = true ->
  neighbours_unmet (match_history (store w)) (standings_list view (store w)) ->
  swissPairings view w
  = (Ok (adjacent_pairs (standings_list view (store w))), w).
Proof.
  intros R Ev Hu. rewrite swissPairings_unfold by assumption.
  apply Nat.even_spec in Ev. destruct Ev as [n Hn].
  rewrite (bind_Ok _ _ _ _ _
             (pairing_loop_neighbours w R n _ []
                (Datatypes.S (List.length (standings_list view (store w))))
                Hn ltac:(lia) Hu)).
  reflexivity.
Qed.

Lemma swissPairings_pairs_neighbours_witness :
  swissPairings player_standings_view four_players_round_two
  = (Ok [(1, "Bill"%string, 3, "Rob"%string);
         (2, "Heather"%string, 4, "Alicia"%string)], four_players_round_two).
Proof.
  apply (swissPairings_pairs_neighbours player_standings_view
           four_players_round_two eq_refl eq_refl).
  repeat split.
Defined.

(** ** The first pair *)

Lemma swissPairings_first_pair view w p1 (l1 : list Row) p2 (l2 : list Row) :
  reachable w = true ->
  standings_list view (store w) = p1 :: l1 ++ p2 :: l2 ->
  Nat.even (List.length (standings_list view (store w))) = true ->
  Forall (fun c => isRematch (match_history (store w)) (s_id p1) (s_id c)
                   = true) l1 ->
  l2 = [] \/ isRematch (match_history (store w)) (s_id p1) (s_id p2) = false ->
  exists ps,
    swissPairings view w = (Ok (pair_of p1 p2 :: ps), w)
    /\ Pairing (match_history (store w)) (l1 ++ l2) ps.
Proof.
  intros R Es Ev H1 H2. rewrite swissPairings_unfold by assumption.
  rewrite Es in *.
  assert (Hn : exists n, List.length (l1 ++ l2) = (2 * n)%nat).
  { apply Nat.even_spec in Ev. destruct Ev as [k Hk].
    simpl in Hk. rewrite length_app in *. simpl in Hk.
    destruct k as [|k]; [lia|]. exists k. lia. }
  destruct Hn as [n Hn].
  destruct (pairing_loop_even w R n (l1 ++ l2) ([] ++ [pair_of p1 p2])
              (List.length (p1 :: l1 ++ p2 :: l2))) as (ps & E & P).
  { exact Hn. }
  { simpl. rewrite length_app in *. simpl. lia. }
  exists ps. split; [|exact P].
  rewrite (bind_Ok _ _ _ _ _
             (eq_trans
                (while_true _ _ _ _ _ _ _ _ eq_refl
                   (pairing_round_even w p1 l1 p2 l2 [] R Ev H1 H2))
                E)).
  reflexivity.
Qed.

(** X9: with an even number of standings rows, the first tuple returned
    pairs the player of the first row with the highest-ranked player that
    [rematchCheck] does not report as met: every row between the two is a
    rematch of the first. *)
Theorem swissPairings_top_player_meets_best_unmet view w p1 l1 p2 l2 :
  reachable w = true ->
  standings_list view (store w) = p1 :: l1 ++ p2 :: l2 ->
  Nat.even (List.length (standings_list view (store w))) = true ->
  Forall (fun c => isRematch (match_history (store w)) (s_id p1) (s_id c)
                   = true) l1 ->
  isRematch (match_history (store w)) (s_id p1) (s_id p2) = false ->
  exists ps,
    swissPairings view w
    = (Ok ((s_id p1, s_name p1, s_id p2, s_name p2) :: ps), w).
Proof.
  intros R Es Ev H1 H2.
  destruct (swissPairings_first_pair view w p1 l1 p2 l2 R Es Ev H1
              (or_intror H2)) as (ps & E & _).
  now exists ps.
Qed.

Lemma swissPairings_top_player_meets_best_unmet_witness :
  exists ps,
    swissPairings player_standings_view
      (after (reportMatch 1 2) four_players)
    = (Ok ((1, "Bill"%string, 3, "Rob"%string) :: ps),
       after (reportMatch 1 2) four_players).
Proof.
  apply (swissPairings_top_player_meets_best_unmet player_standings_view
           (after (reportMatch 1 2) four_players)
           (mkRow 1 "Bill" 1 1) [mkRow 2 "Heather" 0 1]
           (mkRow 3 "Rob" 0 0) [mkRow 4 "Alicia" 0 0]);
    try reflexivity.
  repeat constructor.
Defined.

(** X10: with an even number of standings rows, when the player of the
    first row has met every other player of the standings, the first tuple
    returned pairs that player with the player of the last row: the rematch
    is accepted. *)
Theorem swissPairings_forced_rematch view w p1 l1 p2 :
  reachable w = true ->
  standings_list view (store w) = p1 :: l1 ++ [p2] ->
  Nat.even (List.length (standings_list view (store w))) = true ->
  Forall (fun c => isRematch (match_history (store w)) (s_id p1) (s_id c)
                   = true) (l1 ++ [p2]) ->
  exists ps,
    swissPairings view w
    = (Ok ((s_id p1, s_name p1, s_id p2, s_name p2) :: ps), w).
Proof.
  intros R Es Ev H1. apply Forall_app in H1. destruct H1 as [H1 _].
  destruct (swissPairings_first_pair view w p1 l1 p2 [] R Es Ev H1
              (or_introl eq_refl)) as (ps & E & _).
  now exists ps.
Qed.

Lemma swissPairings_forced_rematch_witness :
  exists ps,
    swissPairings player_standings_view four_players_all_met
    = (Ok ((1, "Bill"%string, 4, "Alicia"%string) :: ps),
       four_players_all_met).
Proof.
  apply (swissPairings_forced_rematch player_standings_view
           four_players_all_met
           (mkRow 1 "Bill" 3 3) [mkRow 2 "Heather" 0 1; mkRow 3 "Rob" 0 1]
           (mkRow 4 "Alicia" 0 1));
    try reflexivity.
  repeat constructor.
Defined.

(** ** The player with the bye *)

(** X11: with an odd number of standings rows of distinct ids, the player
    whose bye the call records is in none of the tuples it returns, and
    every other player of the standings is in one of them. *)
Theorem swissPairings_bye_recipient_unpaired view w ps w' :
  reachable w = true ->
  NoDup (map s_id (standings_list view (store w))) ->
  Nat.even (List.length (standings_list view (store w))) = false ->
  swissPairings view w = (Ok ps, w') ->
  exists r,
    In r (standings_list view (store w))
    /\ match_history (store w')
       = match_history (store w) ++ [(s_id r, -1)]
    /\ ~ In (s_id r) (pair_ids ps)
    /\ forall x, In x (standings_list view (store w)) ->
                 s_id x <> s_id r -> In (s_id x) (pair_ids ps).
Proof.
  intros R Hnd Od E.
  destruct (bye_choice_exists (match_history (store w)) _
              (standings_odd_nonempty _ Od)) as (a & r & b & Hc).
  destruct (swissPairings_odd view w a r b R Od Hc) as [H0 H1].
  destruct Hc as [Es _]. rewrite Es in *.
  destruct (a ++ b) as [|x0 l0] eqn:Eab.
  { rewrite (H0 eq_refl) in E. discriminate. }
  destruct H1 as (ps' & E' & P); [discriminate|].
  rewrite E' in E. injection E as <- <-.
  apply Pairing_ids in P. rewrite <- Eab in P.
  rewrite map_app in Hnd. cbn [map] in Hnd.
  exists r. split; [apply in_or_app; right; now left|].
  split; [reflexivity|]. split.
  - intros Hin. apply (Permutation_in _ (Permutation_sym P)) in Hin.
    rewrite map_app in Hin. now apply NoDup_remove_2 in Hnd.
  - intros x Hx Hne. apply (Permutation_in _ P).
    apply in_map. apply in_app_or in Hx. apply in_or_app.
    destruct Hx as [Hx | [<- | Hx]]; [now left | congruence | now right].
Qed.

Lemma swissPairings_bye_recipient_unpaired_witness :
  exists r,
    In r (standings_list player_standings_view (store three_players))
    /\ match_history
         (store (after (swissPairings player_standings_view) three_players))
       = [(s_id r, -1)]
    /\ ~ In (s_id r) (pair_ids [(1, "Bill"%string, 2, "Heather"%string)]).
Proof.
  destruct (swissPairings_bye_recipient_unpaired player_standings_view
              three_players [(1, "Bill"%string, 2, "Heather"%string)]
              (after (swissPairings player_standings_view) three_players))
    as (r & Hin & Hh & Hn & _).
  - reflexivity.
  - vm_compute. repeat constructor; simpl; intuition discriminate.
  - reflexivity.
  - reflexivity.
  - exists r. auto.
Defined.

(** ** Standings without the view *)

Lemma insert_ranked_perm ge p l : Permutation (p :: l) (insert_ranked ge p l).
Proof.
  induction l as [|q l IH]; simpl; [reflexivity|].
  destruct (ge p q); [reflexivity|].
  rewrite perm_swap. now constructor.
Qed.

Lemma order_by_perm ge l : Permutation l (order_by ge l).
Proof.
  induction l as [|p l IH]; simpl; [constructor|].
  rewrite <- insert_ranked_perm. now constructor.
Qed.

(** X12: when the view [player_standings] has no rows, [playerStandings] on
    a reachable store returns the rows [(id, name, wins, matches_played)] of
    all registered players, each once, in an order in which wins never
    increase; their number is the one [countPlayers] returns, and the stored
    state is not changed. *)
Theorem playerStandings_without_view view w :
  reachable w = true ->
  view (store w) = [] ->
  exists rows,
    playerStandings view w = (Ok rows, w)
    /\ Permutation (map row_of_player (players (store w))) rows
    /\ StronglySorted (fun r1 r2 => s_wins r2 <= s_wins r1) rows
    /\ countPlayers w = (Ok (len rows), w).
Proof.
  intros R Ev. exists (sql_players_by_wins (store w)).
  split; [|split; [|split]].
  - rewrite playerStandings_reachable by assumption.
    unfold standings_list. now rewrite Ev.
  - unfold sql_players_by_wins. apply Permutation_map, order_by_perm.
  - unfold sql_players_by_wins.
    apply (StronglySorted_rows (fun a b => wins_desc a b = true));
      [|apply wins_desc_sorted].
    intros p q H. apply Z.leb_le in H. exact H.
  - rewrite countPlayers_reachable by assumption.
    unfold sql_players_by_wins, len.
    now rewrite length_map, order_by_length.
Qed.

Lemma playerStandings_without_view_witness :
  exists rows,
    playerStandings player_standings_view three_players
    = (Ok rows, three_players)
    /\ Permutation
         (map row_of_player (players (store three_players))) rows
    /\ countPlayers three_players = (Ok (len rows), three_players).
Proof.
  destruct (playerStandings_without_view player_standings_view three_players
              eq_refl eq_refl) as (rows & E & P & _ & C).
  exists rows. auto.
Defined.

(** ** Playing a round *)

Lemma find_none_not_exists id d :
  find (fun p => p_id p =? id) (players d) = None ->
  player_exists id d = false.
Proof.
  intros F. unfold player_exists.
  destruct (existsb _ (players d)) eqn:E; [|reflexivity].
  apply existsb_exists in E. destruct E as (p & Hin & Hp).
  apply (find_none _ _ F) in Hin. congruence.
Qed.

Lemma find_some_exists id d p :
  find (fun p => p_id p =? id) (players d) = Some p ->
  p_id p = id /\ player_exists id d = true.
Proof.
  intros F. apply find_some in F. destruct F as [Hin Hp]. split.
  - now apply Z.eqb_eq.
  - unfold player_exists. apply existsb_exists. eauto.
Qed.

Lemma matches_of_add_win a d id :
  matches_of (sql_add_win a d) id
  = matches_of d id + (if (id =? a) && player_exists id d then 1 else 0).
Proof.
  unfold matches_of, sql_add_win. cbn [players].
  rewrite find_id_map by (intros p; now destruct (p_id p =? a)).
  destruct (find _ (players d)) as [p|] eqn:F; cbn [option_map].
  - destruct (find_some_exists _ _ _ F) as [<- ->]. rewrite andb_true_r.
    destruct (p_id p =? a); cbn; lia.
  - rewrite (find_none_not_exists _ _ F), andb_false_r. lia.
Qed.

Lemma matches_of_add_loss a d id :
  matches_of (sql_add_loss a d) id
  = matches_of d id + (if (id =? a) && player_exists id d then 1 else 0).
Proof.
  unfold matches_of, sql_add_loss. cbn [players].
  rewrite find_id_map by (intros p; now destruct (p_id p =? a)).
  destruct (find _ (players d)) as [p|] eqn:F; cbn [option_map].
  - destruct (find_some_exists _ _ _ F) as [<- ->]. rewrite andb_true_r.
    destruct (p_id p =? a); cbn; lia.
  - rewrite (find_none_not_exists _ _ F), andb_false_r. lia.
Qed.

Lemma ids_add_loss id d :
  map p_id (players (sql_add_loss id d)) = map p_id (players d).
Proof.
  unfold sql_add_loss. cbn [players]. rewrite map_map. apply map_ext.
  intros p. now destruct (p_id p =? id).
Qed.

Lemma player_exists_same_ids a d d' :
  map p_id (players d') = map p_id (players d) ->
  player_exists a d' = player_exists a d.
Proof.
  intros E. destruct (player_exists a d) eqn:H.
  - apply player_exists_In. rewrite E. now apply player_exists_In.
  - destruct (player_exists a d') eqn:H'; [|reflexivity].
    apply player_exists_In in H'. rewrite E in H'.
    apply player_exists_In in H'. congruence.
Qed.

(** What a recorded match does to the number of matches of a player. *)
Lemma matches_of_recorded winner loser d id :
  player_exists id d = true ->
  matches_of
    (sql_insert_match winner loser
       (sql_add_loss loser (sql_add_win winner d))) id
  = matches_of d id
    + (if id =? winner then 1 else 0) + (if id =? loser then 1 else 0).
Proof.
  intros He.
  change (matches_of (sql_insert_match winner loser ?x) id)
    with (matches_of x id).
  rewrite matches_of_add_loss, matches_of_add_win.
  rewrite (player_exists_same_ids id d _ (ids_add_win winner d)), He.
  now rewrite !andb_true_r.
Qed.

Lemma count_occ_two (a b id : Z) (l : list Z) :
  Z.of_nat (count_occ Z.eq_dec (a :: b :: l) id)
  = (if id =? a then 1 else 0) + (if id =? b then 1 else 0)
    + Z.of_nat (count_occ Z.eq_dec l id).
Proof.
  cbn [count_occ].
  destruct (Z.eq_dec a id) as [->|Na]; destruct (Z.eq_dec b id) as [->|Nb];
    rewrite ?Z.eqb_refl;
    repeat match goal with
           | H : ?x <> id |- _ =>
               replace (id =? x) with false
                 by (symmetry; apply Z.eqb_neq; congruence);
               clear H
           end; lia.
Qed.

Lemma report_pairs_reachable (pairs : list Pair) :
  forall (draws : nat -> bool) (w : World),
    reachable w = true ->
    Forall (fun id => player_exists id (store w) = true) (pair_ids pairs) ->
    exists w',
      report_pairs draws pairs w = (Ok tt, w')
      /\ reachable w' = true
      /\ map p_id (players (store w')) = map p_id (players (store w))
      /\ match_history (store w')
         = match_history (store w) ++ results_of draws pairs
      /\ forall id,
           player_exists id (store w) = true ->
           matches_of (store w') id
           = matches_of (store w) id
             + Z.of_nat (count_occ Z.eq_dec (pair_ids pairs) id).
Proof.
  induction pairs as [|[[[id1 n1] id2] n2] rest IH]; intros draws w R Hex.
  - exists w. cbn [report_pairs results_of pair_ids flat_map count_occ].
    rewrite app_nil_r. repeat split; auto. intros. lia.
  - cbn [pair_ids flat_map app] in Hex.
    inversion Hex as [|? ? H1 Hex']; subst.
    inversion Hex' as [|? ? H2 Hex'']; subst.
    cbn [report_pairs results_of fst snd].
    set (res := determineWinner (draws O) id1 id2).
    assert (Hres : (fst res = id1 /\ snd res = id2)
                   \/ (fst res = id2 /\ snd res = id1)).
    { unfold res, determineWinner. destruct (draws O); auto. }
    assert (Hw : player_exists (fst res) (store w) = true)
      by (destruct Hres as [[-> _] | [-> _]]; assumption).
    assert (Hl : player_exists (snd res) (store w) = true)
      by (destruct Hres as [[_ ->] | [_ ->]]; assumption).
    pose proof (reportMatch_known_players w _ _ R Hw Hl) as E.
    set (w1 := set_store
                 (sql_insert_match (fst res) (snd res)
                    (sql_add_loss (snd res) (sql_add_win (fst res) (store w))))
                 w) in *.
    assert (Hids : map p_id (players (store w1)) = map p_id (players (store w))).
    { unfold w1. cbn [store set_store sql_insert_match players].
      now rewrite ids_add_loss, ids_add_win. }
    destruct (IH (fun n => draws (Datatypes.S n)) w1) as (w' & E' & R' & I' & H' & M').
    { exact R. }
    { eapply Forall_impl; [|exact Hex'']. intros id Hid. cbn beta in *.
      now rewrite (player_exists_same_ids id (store w) (store w1) Hids). }
    exists w'. split; [|split; [|split; [|split]]].
    + rewrite (bind_Ok _ _ _ _ _ E). exact E'.
    + exact R'.
    + now rewrite I'.
    + rewrite H'. unfold w1.
      cbn [store set_store sql_insert_match match_history].
      rewrite <- app_assoc. cbn [app]. do 2 f_equal.
      now destruct res.
    + intros id He.
      rewrite M' by now rewrite (player_exists_same_ids id (store w) _ Hids).
      unfold w1. cbn [store set_store].
      rewrite matches_of_recorded by assumption.
      change (pair_ids ((id1, n1, id2, n2) :: rest))
        with (id1 :: id2 :: pair_ids rest).
      rewrite count_occ_two.
      destruct Hres as [[-> ->] | [-> ->]]; lia.
Qed.

Lemma results_of_sides draws (pairs : list Pair) :
  Forall2 (fun (t : Pair) (m : MatchRecord) =>
             m = (fst (fst (fst t)), snd (fst t))
             \/ m = (snd (fst t), fst (fst (fst t))))
    pairs (results_of draws pairs).
Proof.
  revert draws. induction pairs as [|t rest IH]; intros draws;
    cbn [results_of]; constructor; [|apply IH].
  unfold determineWinner. destruct (draws O); auto.
Qed.

Lemma results_of_rematch draws (pairs : list Pair) h t :
  In t pairs ->
  isRematch (h ++ results_of draws pairs) (fst (fst (fst t))) (snd (fst t))
  = true.
Proof.
  intros Hin. rewrite isRematch_app. apply orb_true_iff. right.
  revert draws. induction pairs as [|t' rest IH]; intros draws;
    [destruct Hin|].
  cbn [results_of]. unfold isRematch. cbn [existsb].
  apply orb_true_iff. destruct Hin as [-> | Hin].
  - left. unfold determineWinner.
    destruct (draws O); cbn [fst snd]; rewrite !Z.eqb_refl; cbn;
      now rewrite ?orb_true_r.
  - right. apply (IH Hin).
Qed.

(** X13: on a reachable store, reporting the pairs of a round between
    registered players returns normally whichever way [determineWinner]
    decides each match: one record is appended per pair, with the pair's
    two ids as winner and loser in one order or the other, so that
    [rematchCheck] answers [True] for every pair afterwards; and every
    registered player has played as many more matches as the player's id
    occurs in the pairs. *)
Theorem report_pairs_records_round draws (pairs : list Pair) w :
  reachable w = true ->
  Forall (fun id => player_exists id (store w) = true) (pair_ids pairs) ->
  exists w',
    report_pairs draws pairs w = (Ok tt, w')
    /\ match_history (store w')
       = match_history (store w) ++ results_of draws pairs
    /\ Forall2 (fun (t : Pair) (m : MatchRecord) =>
                  m = (fst (fst (fst t)), snd (fst t))
                  \/ m = (snd (fst t), fst (fst (fst t))))
         pairs (results_of draws pairs)
    /\ (forall t, In t pairs ->
          rematchCheck (fst (fst (fst t))) (snd (fst t)) w' = (Ok true, w'))
    /\ (forall id,
          player_exists id (store w) = true ->
          matches_of (store w') id
          = matches_of (store w) id
            + Z.of_nat (count_occ Z.eq_dec (pair_ids pairs) id)).
Proof.
  intros R Hex.
  destruct (report_pairs_reachable pairs draws w R Hex)
    as (w' & E & R' & _ & H & M).
  exists w'. split; [exact E|]. split; [exact H|].
  split; [apply results_of_sides|]. split; [|exact M].
  intros t Hin. rewrite rematchCheck_reachable by assumption.
  rewrite H. now rewrite results_of_rematch.
Qed.

Lemma report_pairs_records_round_witness :
  exists w',
    report_pairs (fun n => Nat.even n)
      [(1, "Bill"%string, 2, "Heather"%string);
       (3, "Rob"%string, 4, "Alicia"%string)] four_players = (Ok tt, w')
    /\ match_history (store w') = [(1, 2); (4, 3)]
    /\ matches_of (store w') 4 = 1.
Proof.
  destruct (report_pairs_records_round (fun n => Nat.even n)
              [(1, "Bill"%string, 2, "Heather"%string);
               (3, "Rob"%string, 4, "Alicia"%string)] four_players eq_refl)
    as (w' & E & H & _ & _ & M).
  - repeat constructor.
  - exists w'. split; [exact E|]. split; [exact H|].
    exact (M 4 eq_refl).
Defined.

Lemma matches_of_record_bye rid d id :
  player_exists id d = true ->
  matches_of (record_bye rid d) id
  = matches_of d id + (if id =? rid then 1 else 0).
Proof.
  intros He. unfold record_bye.
  change (matches_of (sql_insert_match rid (-1) ?x) id) with (matches_of x id).
  now rewrite matches_of_add_win, He, andb_true_r.
Qed.

Lemma count_occ_once (l : list Z) id :
  NoDup l -> In id l -> Z.of_nat (count_occ Z.eq_dec l id) = 1.
Proof.
  intros Hnd Hin.
  now rewrite (proj1 (NoDup_count_occ' Z.eq_dec l) Hnd id Hin).
Qed.

Lemma count_occ_none (l : list Z) id :
  ~ In id l -> Z.of_nat (count_occ Z.eq_dec l id) = 0.
Proof.
  intros Hn. now rewrite (proj1 (count_occ_not_In Z.eq_dec l id) Hn).
Qed.

Lemma play_round_reachable view draws w :
  reachable w = true ->
  NoDup (map s_id (standings_list view (store w))) ->
  Forall (fun r => player_exists (s_id r) (store w) = true)
    (standings_list view (store w)) ->
  List.length (standings_list view (store w)) <> 1%nat ->
  exists w',
    play_round view draws w = (Ok tt, w')
    /\ reachable w' = true
    /\ map p_id (players (store w')) = map p_id (players (store w))
    /\ forall r, In r (standings_list view (store w)) ->
                 matches_of (store w') (s_id r)
                 = matches_of (store w) (s_id r) + 1.
Proof.
  intros R Hnd Hex N1. unfold play_round.
  set (s := standings_list view (store w)) in *.
  rewrite Forall_forall in Hex.
  destruct (Nat.even (List.length s)) eqn:Ev.
  - destruct (swissPairings_even view w R Ev) as (ps & E & P).
    fold s in P. apply Pairing_ids in P.
    destruct (report_pairs_reachable ps draws w R)
      as (w' & E' & R' & I' & _ & M).
    { apply Forall_forall. intros id Hid.
      apply (Permutation_in _ (Permutation_sym P)) in Hid.
      apply in_map_iff in Hid. destruct Hid as (x & <- & Hx). now apply Hex. }
    exists w'. split; [now rewrite (bind_Ok _ _ _ _ _ E)|].
    split; [exact R'|]. split; [congruence|].
    intros r Hr. rewrite M by now apply Hex. f_equal.
    apply count_occ_once.
    + apply (Permutation_NoDup P Hnd).
    + apply (Permutation_in _ P). now apply in_map.
  - destruct (bye_choice_exists (match_history (store w)) s
                (standings_odd_nonempty _ Ev)) as (a & r & b & Hc).
    destruct (swissPairings_odd view w a r b R Ev Hc) as [_ H1].
    destruct Hc as [Es _]. fold s in H1.
    destruct H1 as (ps & E & P).
    { intros E0. apply N1. rewrite Es, length_app. cbn [List.length].
      apply (f_equal (@List.length Row)) in E0. rewrite length_app in E0.
      cbn [List.length] in E0. lia. }
    apply Pairing_ids in P.
    set (w1 := set_store (record_bye (s_id r) (store w)) w) in *.
    assert (Hids : map p_id (players (store w1)) = map p_id (players (store w)))
      by apply ids_add_win.
    rewrite Es, map_app in Hnd. cbn [map] in Hnd.
    pose proof (NoDup_remove_1 _ _ _ Hnd) as Hnd1.
    pose proof (NoDup_remove_2 _ _ _ Hnd) as Hnr.
    rewrite <- map_app in Hnd1, Hnr.
    destruct (report_pairs_reachable ps draws w1 R)
      as (w' & E' & R' & I' & _ & M).
    { apply Forall_forall. intros id Hid.
      apply (Permutation_in _ (Permutation_sym P)) in Hid.
      rewrite (player_exists_same_ids id (store w) _ Hids).
      apply in_map_iff in Hid. destruct Hid as (x & <- & Hx). apply Hex.
      rewrite Es. apply in_app_or in Hx. apply in_or_app.
      destruct Hx; [now left | right; now right]. }
    exists w'. split; [now rewrite (bind_Ok _ _ _ _ _ E)|].
    split; [exact R'|]. split; [congruence|].
    intros x Hx.
    rewrite M by (rewrite (player_exists_same_ids _ (store w) _ Hids);
                  now apply Hex).
    unfold w1. cbn [store set_store].
    rewrite matches_of_record_bye by now apply Hex.
    destruct (s_id x =? s_id r) eqn:Exr.
    + apply Z.eqb_eq in Exr. rewrite Exr.
      rewrite count_occ_none; [lia|].
      intros Hin. apply (Permutation_in _ (Permutation_sym P)) in Hin.
      contradiction.
    + apply Z.eqb_neq in Exr. rewrite count_occ_once; [lia | |].
      * apply (Permutation_NoDup P Hnd1).
      * apply (Permutation_in _ P). apply in_map.
        rewrite Es in Hx. apply in_app_or in Hx. apply in_or_app.
        destruct Hx as [Hx | [<- | Hx]]; [now left | congruence | now right].
Qed.

(** X14: one round of the test run, [swissPairings] followed by the report
    of every pair.  On a reachable store whose standings have distinct ids
    of registered players, and more or fewer than one row, the round returns
    normally whichever way the matches are decided, and afterwards every
    player of the standings has played exactly one match more, the bye
    counting as one. *)
Theorem play_round_one_match_each view draws w :
  reachable w = true ->
  NoDup (map s_id (standings_list view (store w))) ->
  Forall (fun r => player_exists (s_id r) (store w) = true)
    (standings_list view (store w)) ->
  List.length (standings_list view (store w)) <> 1%nat ->
  exists w',
    play_round view draws w = (Ok tt, w')
    /\ forall r, In r (standings_list view (store w)) ->
                 matches_of (store w') (s_id r)
                 = matches_of (store w) (s_id r) + 1.
Proof.
  intros R Hnd Hex N1.
  destruct (play_round_reachable view draws w R Hnd Hex N1)
    as (w' & E & _ & _ & M).
  exists w'. split; [exact E | exact M].
Qed.

Lemma play_round_one_match_each_witness :
  exists w',
    play_round player_standings_view (fun n => Nat.even n) three_players
    = (Ok tt, w')
    /\ map p_matches_played (players (store w')) = [1; 1; 1].
Proof.
  destruct (play_round_one_match_each player_standings_view
              (fun n => Nat.even n) three_players eq_refl)
    as (w' & E & _).
  - vm_compute. repeat constructor; simpl; intuition discriminate.
  - repeat constructor.
  - discriminate.
  - exists w'. split; [exact E|].
    vm_compute in E. injection E as <-. reflexivity.
Defined.

(** ** Several rounds *)

Lemma row_ids l : map s_id (map row_of_player l) = map p_id l.
Proof. rewrite map_map. now apply map_ext. Qed.

(** The view as modelled names the registered players, each once. *)
Lemma player_standings_view_lists_players :
  lists_players player_standings_view.
Proof.
  intros d. unfold standings_list, player_standings_view, sql_players_by_wins.
  destruct (match_history d) as [|m h].
  - change (len (@nil Row) =? 0) with true. cbv iota.
    rewrite row_ids. apply Permutation_map, Permutation_sym, order_by_perm.
  - destruct (len (map row_of_player (order_by (wins_omw_desc d) (players d)))
              =? 0);
      rewrite row_ids; apply Permutation_map, Permutation_sym, order_by_perm.
Qed.

Lemma play_rounds_reachable view draws :
  lists_players view ->
  forall (k i : nat) (w : World),
    reachable w = true ->
    NoDup (map p_id (players (store w))) ->
    List.length (players (store w)) <> 1%nat ->
    exists w',
      play_rounds view draws i k w = (Ok tt, w')
      /\ reachable w' = true
      /\ map p_id (players (store w')) = map p_id (players (store w))
      /\ forall id,
           player_exists id (store w) = true ->
           matches_of (store w') id = matches_of (store w) id + Z.of_nat k.
Proof.
  intros Hv. induction k as [|k IH]; intros i w R Hnd N1.
  - exists w. cbn [play_rounds]. repeat split; auto. intros. cbn. lia.
  - pose proof (Hv (store w)) as P.
    destruct (play_round_reachable view (draws i) w R) as (w1 & E & R1 & I1 & M1).
    { apply (Permutation_NoDup (Permutation_sym P) Hnd). }
    { apply Forall_forall. intros r Hr. apply player_exists_In.
      apply (Permutation_in _ P). now apply in_map. }
    { apply Permutation_length in P. rewrite !length_map in P. congruence. }
    destruct (IH (Datatypes.S i) w1 R1) as (w' & E' & R' & I' & M').
    { now rewrite I1. }
    { apply (f_equal (@List.length Z)) in I1. rewrite !length_map in I1.
      congruence. }
    exists w'. split; [|split; [|split]].
    + cbn [play_rounds]. now rewrite (bind_Ok _ _ _ _ _ E).
    + exact R'.
    + congruence.
    + intros id He.
      rewrite M' by now rewrite (player_exists_same_ids id (store w) _ I1).
      apply player_exists_In in He.
      apply (Permutation_in _ (Permutation_sym P)) in He.
      apply in_map_iff in He. destruct He as (r & <- & Hr).
      rewrite (M1 r Hr). lia.
Qed.

(** X15: the rounds of the test run.  On a reachable store with distinct
    player ids and more or fewer than one player, and with standings that
    name each registered player once, any number [k] of rounds (pairing,
    then reporting every pair) returns normally whichever way the matches
    are decided, and every registered player has then played exactly [k]
    matches more. *)
Theorem play_rounds_k_matches_each view draws k i w :
  lists_players view ->
  reachable w = true ->
  NoDup (map p_id (players (store w))) ->
  List.length (players (store w)) <> 1%nat ->
  exists w',
    play_rounds view draws i k w = (Ok tt, w')
    /\ forall id,
         player_exists id (store w) = true ->
         matches_of (store w') id = matches_of (store w) id + Z.of_nat k.
Proof.
  intros Hv R Hnd N1.
  destruct (play_rounds_reachable view draws Hv k i w R Hnd N1)
    as (w' & E & _ & _ & M).
  exists w'. split; [exact E | exact M].
Qed.

Lemma play_rounds_k_matches_each_witness :
  exists w',
    play_rounds player_standings_view (fun i n => Nat.even (i + n)) 0 3
      nine_players = (Ok tt, w')
    /\ matches_of (store w') 9 = 3.
Proof.
  destruct (play_rounds_k_matches_each player_standings_view
              (fun i n => Nat.even (i + n)) 3 0 nine_players
              player_standings_view_lists_players eq_refl)
    as (w' & E & M).
  - vm_compute. repeat constructor; simpl; intuition discriminate.
  - discriminate.
  - exists w'. split; [exact E | exact (M 9 eq_refl)].
Defined.

(** ** The test run *)

Lemma find_by_id l p :
  NoDup (map p_id l) -> In p l ->
  find (fun q => p_id q =? p_id p) l = Some p.
Proof.
  induction l as [|q l IH]; intros Hnd Hin; [destruct Hin|].
  cbn [map] in Hnd. inversion Hnd as [|? ? Hq Hl]; subst.
  cbn [find]. destruct Hin as [-> | Hin].
  - now rewrite Z.eqb_refl.
  - destruct (p_id q =? p_id p) eqn:E; [|now apply IH].
    apply Z.eqb_eq in E. exfalso. apply Hq. rewrite E. now apply in_map.
Qed.

Lemma matches_of_row d p :
  NoDup (map p_id (players d)) -> In p (players d) ->
  matches_of d (p_id p) = p_matches_played p.
Proof.
  intros Hnd Hin. unfold matches_of. now rewrite find_by_id.
Qed.

Lemma player_exists_row d p : In p (players d) -> player_exists (p_id p) d = true.
Proof. intros Hin. apply player_exists_In. now apply in_map. Qed.

Ltac run_reachable R L := erewrite bind_Ok by (apply L; exact R).

(** X16: the test run at the end of the file, from [deleteMatches()] to the
    final [playerStandings()], on any reachable store and with standings
    that name each registered player once: whatever was stored before and
    whichever way the twelve matches are decided, it returns normally, and
    it leaves nine players with distinct ids who have each played exactly
    three matches; the final standings have nine rows. *)
Theorem test_run_completes view draws w :
  lists_players view ->
  reachable w = true ->
  exists rows w',
    test_run view draws w = (Ok rows, w')
    /\ List.length rows = 9%nat
    /\ List.length (players (store w')) = 9%nat
    /\ NoDup (map p_id (players (store w')))
    /\ Forall (fun p => p_matches_played p = 3) (players (store w')).
Proof.
  intros Hv R. unfold test_run.
  run_reachable R deleteMatches_reachable.
  run_reachable R deletePlayers_reachable.
  do 9 (run_reachable R registerPlayer_reachable).
  match goal with |- context [bind _ _ ?w0] => set (w9 := w0) end.
  assert (Hnd : NoDup (map p_id (players (store w9)))).
  { unfold w9. cbn. repeat constructor; cbn; intuition lia. }
  assert (H0 : Forall (fun p => p_matches_played p = 0) (players (store w9))).
  { unfold w9. cbn. repeat constructor. }
  destruct (play_rounds_reachable view draws Hv 3 0 w9 R Hnd)
    as (w' & E & R' & I' & M).
  { unfold w9. cbn. discriminate. }
  exists (standings_list view (store w')), w'.
  assert (Hnd' : NoDup (map p_id (players (store w')))) by now rewrite I'.
  split; [|split; [|split; [|split]]].
  - rewrite (bind_Ok _ _ _ _ _ E). now apply playerStandings_reachable.
  - pose proof (Permutation_length (Hv (store w'))) as L.
    rewrite !length_map in L. rewrite L.
    apply (f_equal (@List.length Z)) in I'. rewrite !length_map in I'.
    rewrite I'. unfold w9. reflexivity.
  - apply (f_equal (@List.length Z)) in I'. rewrite !length_map in I'.
    rewrite I'. unfold w9. reflexivity.
  - exact Hnd'.
  - apply Forall_forall. intros p Hp.
    rewrite <- (matches_of_row (store w') p Hnd' Hp).
    assert (He : player_exists (p_id p) (store w9) = true).
    { rewrite <- (player_exists_same_ids _ _ _ I').
      now apply player_exists_row. }
    rewrite (M _ He).
    apply player_exists_In, in_map_iff in He. destruct He as (q & Eq & Hq).
    rewrite <- Eq, (matches_of_row (store w9) q Hnd Hq).
    rewrite Forall_forall in H0. rewrite (H0 q Hq). reflexivity.
Qed.

Lemma test_run_completes_witness :
  exists rows w',
    test_run player_standings_view (fun i n => Nat.even (i + n))
      four_players_round_two = (Ok rows, w')
    /\ List.length rows = 9%nat
    /\ Forall (fun p => p_matches_played p = 3) (players (store w')).
Proof.
  destruct (test_run_completes player_standings_view
              (fun i n => Nat.even (i + n)) four_players_round_two
              player_standings_view_lists_players eq_refl)
    as (rows & w' & E & L & _ & _ & M).
  exists rows, w'. auto.
Defined.

(** ** The first round *)

Lemma history_of_bye p d :
  match_history (record_bye p d) = match_history d ++ [(p, -1)].
Proof. reflexivity. Qed.

Lemma swissPairings_odd_neighbours view w (a : list Row) r (b : list Row) :
  reachable w = true ->
  Nat.even (List.length (standings_list view (store w))) = false ->
  bye_choice (match_history (store w)) (standings_list view (store w)) a r b ->
  a ++ b <> [] ->
  neighbours_unmet (match_history (record_bye (s_id r) (store w))) (a ++ b) ->
  swissPairings view w
  = (Ok (adjacent_pairs (a ++ b)),
     set_store (record_bye (s_id r) (store w)) w).
Proof.
  intros R Od Hc Hne Hu.
  pose proof (assign_bye_choice _ w _ a r b R eq_refl Hc) as Hb.
  rewrite swissPairings_unfold by assumption.
  set (s := standings_list view (store w)) in *.
  set (w' := set_store (record_bye (s_id r) (store w)) w) in *.
  assert (Hs : List.length s = Datatypes.S (List.length (a ++ b))).
  { destruct Hc as [E _]. rewrite E, !length_app. simpl. lia. }
  assert (O : Nat.odd (List.length s) = true)
    by (unfold Nat.odd; now rewrite Od).
  apply Nat.odd_spec in O. destruct O as [k O].
  destruct (a ++ b) as [|r1 [|r2 rest]] eqn:Eab; [congruence | |].
  { simpl in Hs. lia. }
  destruct Hu as [Hu1 Hu2].
  assert (Hcond : (fun st : list Row * list Pair => ret (0 <? len (fst st)))
                    (s, []) w = (Ok true, w)).
  { cbn [fst]. unfold ret. do 2 f_equal. apply Z.ltb_lt. unfold len. lia. }
  rewrite (bind_Ok _ _ _ _ _
             (eq_trans
                (while_true _ _ _ _ _ _ _ _ Hcond
                   (pairing_round_odd w w' s r1 [] r2 rest [] Od Hb R
                      (Forall_nil _) (or_intror Hu1)))
                (pairing_loop_neighbours w' R (k - 1) rest
                   ([] ++ [pair_of r1 r2]) (List.length s)
                   ltac:(simpl in Hs; lia) ltac:(lia) Hu2))).
  reflexivity.
Qed.

Lemma neighbours_unmet_fresh (s : list Row) :
  neighbours_unmet [] s.
Proof.
  assert (H : forall n (s : list Row),
             (List.length s <= n)%nat -> neighbours_unmet [] s).
  { induction n as [|n IH]; intros [|r1 [|r2 rest]] Hl; cbn; auto.
    - simpl in Hl. lia.
    - split; [reflexivity|]. apply IH. simpl in Hl. lia. }
  now apply (H (List.length s)).
Qed.

Lemma neighbours_unmet_one_bye rid (s : list Row) :
  Forall (fun r => s_id r <> -1) s ->
  neighbours_unmet [(rid, -1)] s.
Proof.
  assert (H : forall n (s : list Row),
             (List.length s <= n)%nat ->
             Forall (fun r => s_id r <> -1) s ->
             neighbours_unmet [(rid, -1)] s).
  { induction n as [|n IH]; intros [|r1 [|r2 rest]] Hl Hf;
      cbn [neighbours_unmet]; auto.
    - simpl in Hl. lia.
    - inversion Hf as [|? ? H1 Hf']; subst.
      inversion Hf' as [|? ? H2 Hf'']; subst. split.
      + unfold isRematch. cbn [existsb fst snd].
        replace (-1 =? s_id r2) with false
          by (symmetry; apply Z.eqb_neq; congruence).
        replace (-1 =? s_id r1) with false
          by (symmetry; apply Z.eqb_neq; congruence).
        now rewrite !andb_false_r.
      + apply IH; [simpl in Hl; lia | exact Hf'']. }
  intros Hf. now apply (H (List.length s)).
Qed.

(** X17: the first round.  On a reachable store with an empty match history
    the standings are paired two by two in their order: with an even number
    of rows nothing is recorded; with an odd number of at least three rows,
    none of them with the id [-1], the player of the last row gets the bye
    and the rows before it are paired two by two. *)
Theorem swissPairings_first_round view w :
  reachable w = true ->
  match_history (store w) = [] ->
  (Nat.even (List.length (standings_list view (store w))) = true ->
   swissPairings view w
   = (Ok (adjacent_pairs (standings_list view (store w))), w))
  /\ (forall a r,
        standings_list view (store w) = a ++ [r] ->
        Nat.even (List.length a) = true -> a <> [] ->
        Forall (fun x => s_id x <> -1) a ->
        swissPairings view w
        = (Ok (adjacent_pairs a),
           set_store (record_bye (s_id r) (store w)) w)).
Proof.
  intros R Hh. split.
  - intros Ev. apply swissPairings_pairs_neighbours; auto.
    rewrite Hh. apply neighbours_unmet_fresh.
  - intros a r Es Ea Hne Hf.
    assert (Od : Nat.even (List.length (standings_list view (store w)))
                 = false).
    { rewrite Es, length_app, Nat.add_comm. cbn [List.length Nat.add].
      rewrite Nat.even_succ. unfold Nat.odd. now rewrite Ea. }
    assert (Hc : bye_choice (match_history (store w))
                   (standings_list view (store w)) a r []).
    { split; [exact Es|]. left. rewrite Hh. split; [reflexivity | constructor]. }
    pose proof (swissPairings_odd_neighbours view w a r [] R Od Hc) as H.
    rewrite app_nil_r in H. apply H; [exact Hne|].
    rewrite history_of_bye, Hh. cbn [app].
    now apply neighbours_unmet_one_bye.
Qed.

Lemma swissPairings_first_round_witness :
  swissPairings player_standings_view nine_players
  = (Ok [(1, "Bill"%string, 2, "Heather"%string);
         (3, "Rob"%string, 4, "Alicia"%string);
         (5, "Jordan"%string, 6, "Jess"%string);
         (7, "Peony"%string, 8, "Jane"%string)],
     set_store (record_bye 9 (store nine_players)) nine_players).
Proof.
  apply (proj2 (swissPairings_first_round player_standings_view nine_players
                  eq_refl eq_refl)
           (map row_of_player (firstn 8 (players (store nine_players))))
           (mkRow 9 "Marlin" 0 0)).
  - reflexivity.
  - reflexivity.
  - discriminate.
  - vm_compute. repeat constructor; discriminate.
Defined.

(** ** Who is in a tuple *)

Lemma subseq_all_skipped {A} (s : list A) : subseq [] s.
Proof. induction s; constructor; auto. Qed.

Lemma subseq_insert {A} (z : A) (l x y : list A) :
  subseq l (x ++ y) -> subseq l (x ++ z :: y).
Proof.
  revert l. induction x as [|a x IH]; intros l H; cbn [app] in *.
  - now constructor.
  - inversion H; subst.
    + apply subseq_skip. now apply IH.
    + apply subseq_keep. now apply IH.
Qed.

Lemma subseq_pair_head {A} (p1 p2 : A) (l1 l2 : list A) :
  subseq [p1; p2] (p1 :: l1 ++ p2 :: l2).
Proof.
  apply subseq_keep. induction l1 as [|a l1 IH]; cbn [app].
  - apply subseq_keep, subseq_all_skipped.
  - now apply subseq_skip.
Qed.

Lemma Pairing_rows h s ps :
  Pairing h s ps ->
  Forall (fun t => exists r1 r2, t = pair_of r1 r2 /\ subseq [r1; r2] s) ps.
Proof.
  induction 1 as [|p1 l1 p2 l2 ps _ _ _ IH]; constructor.
  - exists p1, p2. split; [reflexivity | apply subseq_pair_head].
  - eapply Forall_impl; [|exact IH].
    intros t (r1 & r2 & -> & Hs). exists r1, r2. split; [reflexivity|].
    apply subseq_skip. now apply subseq_insert.
Qed.

(** X18: every tuple [swissPairings] returns is made of two rows of the
    standings, [(id, name)] of the one followed by [(id, name)] of the
    other, and the first of the two stands above the second in the
    standings. *)
Theorem swissPairings_tuple_rows view w ps w' :
  reachable w = true ->
  swissPairings view w = (Ok ps, w') ->
  Forall (fun t =>
            exists r1 r2,
              t = (s_id r1, s_name r1, s_id r2, s_name r2)
              /\ subseq [r1; r2] (standings_list view (store w))) ps.
Proof.
  intros R E.
  destruct (swissPairings_Ok_inv view w ps w' R E) as (s0 & Hs & P).
  apply Pairing_rows in P.
  eapply Forall_impl; [|exact P]. intros t (r1 & r2 & -> & Hsub).
  exists r1, r2. split; [reflexivity|].
  destruct Hs as [[_ ->] | [_ (a & r & b & -> & ->)]]; [exact Hsub|].
  now apply subseq_insert.
Qed.

Lemma swissPairings_tuple_rows_witness :
  Forall (fun t =>
            exists r1 r2,
              t = (s_id r1, s_name r1, s_id r2, s_name r2)
              /\ subseq [r1; r2]
                   (standings_list player_standings_view
                      (store four_players_all_met)))
    [(1, "Bill"%string, 4, "Alicia"%string);
     (2, "Heather"%string, 3, "Rob"%string)].
Proof.
  exact (swissPairings_tuple_rows player_standings_view four_players_all_met
           _ four_players_all_met eq_refl eq_refl).
Defined.

(** ** Matches are no byes *)

(** X19: while no registered player has the id [-1], [reportMatch] never
    gives a bye: whatever its arguments and whether it returns or raises,
    the match history says of every id what it said before about having had
    a bye. *)
Theorem reportMatch_gives_no_bye w winner loser p :
  player_exists (-1) (store w) = false ->
  hadBye (match_history (store (after (reportMatch winner loser) w))) p
  = hadBye (match_history (store w)) p.
Proof.
  intros H1. unfold after. destruct (reachable w) eqn:R.
  - destruct (reportMatch_cases w winner loser R)
      as [(_ & Hl & ->) | [_ ->]]; [|reflexivity].
    cbn [snd store set_store sql_insert_match match_history].
    rewrite hadBye_app. cbn [hadBye existsb fst snd].
    assert (Hne : loser <> -1) by (intros ->; congruence).
    replace (loser =? -1) with false by (symmetry; now apply Z.eqb_neq).
    now rewrite andb_false_r, !orb_false_r.
  - unfold reportMatch.
    now rewrite (bind_Raise _ _ _ _ _ (open_cursor_unreachable w R)).
Qed.

Lemma reportMatch_gives_no_bye_witness :
  hadBye (match_history (store (after (reportMatch 1 2) three_players_one_bye)))
    1 = false
  /\ hadBye
       (match_history (store (after (reportMatch 1 2) three_players_one_bye)))
       3 = true.
Proof.
  split.
  - rewrite (reportMatch_gives_no_bye three_players_one_bye 1 2 1 eq_refl).
    reflexivity.
  - reflexivity.
Defined.
